(** * fink-science: the CATS and T2 batch processors

    A shallow embedding of [fink_science/cats/processor.py] ([predict_nn])
    and [fink_science/t2/processor.py] ([t2]).

    Numbers.  Python floats are modelled by exact rationals [Q]: rounding,
    NaN and infinities are outside the model, so a cast to float32 is the
    identity.  Integer casts ([int16], [uint8]) keep their wrap-around.

    Effects.  Both functions run in a small state-and-exception monad over
    a [world]: a heap of Python objects (the input columns of the batch and
    the containers the functions build and mutate), the model files on
    disk, and the log of the model loads and inference calls performed. *)

From Stdlib Require Import QArith Lqa.
From stdpp Require Import gmap strings list fin_maps.

Local Open Scope string_scope.
Local Open Scope list_scope.
Local Open Scope nat_scope.

(** ** Exceptions and fallible results *)

Inductive exn :=
| KeyError      (* a dict lookup on a missing key *)
| IndexError    (* a positional index out of range, or a misaligned mask *)
| ValueError    (* shapes that do not match *)
| TypeError     (* an object of another type than the code expects *)
| OSError       (* a model file that cannot be read *)
| LibError.     (* any exception raised inside an external library *)

Definition result (A : Type) : Type := exn + A.

#[global] Instance result_ret : MRet result := λ A x, inr x.
#[global] Instance result_bind : MBind result := λ A B f m,
  match m with inl e => inl e | inr x => f x end.

(** ** Arrays, tensors and data frames *)

(** A 3-D array, as nested lists: rows, steps, channels. *)
Abbreviation tensor := (list (list (list Q))).

(** A wide data frame: named columns of numbers, in column order. *)
Abbreviation frame := (list (string * list Q)).

Definition columns (df : frame) : list string := df.*1.

(** A pretrained model, once loaded: its inference entry point. *)
Definition artifact : Type := tensor → result (list (list Q)).

(** A class-to-probability mapping. *)
Abbreviation probs := (gmap string Q).

(** ** The world *)

Abbreviation loc := nat.

(** The Python objects that live on the heap: the columns of a batch
    (a [pd.Series]) and the lists, arrays and frames built from them. *)
Inductive obj :=
| OFloatss (x : list (list Q))       (* a column or list of float arrays *)
| OCodess (x : list (list Z))        (* a column or list of int arrays *)
| ONamess (x : list (list string))   (* a column of string arrays *)
| OFloats (x : list Q)               (* a column of floats *)
| OInts (x : list Z)                 (* a column of integers *)
| OStrs (x : list string)            (* a column of strings *)
| ODicts (x : list probs)            (* a list or array of mappings *)
| OFrame (x : frame).                (* a data frame *)

Inductive event :=
| EvLoad (path : string)             (* a model file is read *)
| EvPredict (x : tensor).            (* a model runs on [x] *)

Record world := World {
  heap : list obj;
  disk : string → option artifact;
  log : list event
}.

Definition set_heap (h : list obj) (w : world) : world :=
  World h (disk w) (log w).

Definition emit (e : event) (w : world) : world :=
  World (heap w) (disk w) (log w ++ [e]).

(** ** The monad: state passing with exceptions; the world survives a raise *)

Definition M (A : Type) : Type := world → result A * world.

#[global] Instance M_ret : MRet M := λ A x w, (inr x, w).
#[global] Instance M_bind : MBind M := λ A B f m w,
  match m w with
  | (inl e, w') => (inl e, w')
  | (inr x, w') => f x w'
  end.

Definition raise {A} (e : exn) : M A := λ w, (inl e, w).

Definition lift {A} (r : result A) : M A := λ w, (r, w).

Definition alloc (o : obj) : M loc :=
  λ w, (inr (length (heap w)), set_heap (heap w ++ [o]) w).

Definition read (l : loc) : M obj :=
  λ w, match heap w !! l with
       | Some o => (inr o, w)
       | None => (inl TypeError, w)
       end.

Definition write (l : loc) (o : obj) : M unit :=
  λ w, if decide (l < length (heap w))
       then (inr tt, set_heap (<[l:=o]> (heap w)) w)
       else (inl TypeError, w).

Definition read_floatss l : M (list (list Q)) :=
  o ← read l; match o with OFloatss x => mret x | _ => raise TypeError end.
Definition read_codess l : M (list (list Z)) :=
  o ← read l; match o with OCodess x => mret x | _ => raise TypeError end.
Definition read_namess l : M (list (list string)) :=
  o ← read l; match o with ONamess x => mret x | _ => raise TypeError end.
Definition read_floats l : M (list Q) :=
  o ← read l; match o with OFloats x => mret x | _ => raise TypeError end.
Definition read_ints l : M (list Z) :=
  o ← read l; match o with OInts x => mret x | _ => raise TypeError end.
Definition read_strs l : M (list string) :=
  o ← read l; match o with OStrs x => mret x | _ => raise TypeError end.
Definition read_dicts l : M (list probs) :=
  o ← read l; match o with ODicts x => mret x | _ => raise TypeError end.
Definition read_frame l : M frame :=
  o ← read l; match o with OFrame x => mret x | _ => raise TypeError end.

(** [lst.append(x)] on a heap list. *)
Definition append_floats (l : loc) (x : list Q) : M unit :=
  v ← read_floatss l; write l (OFloatss (v ++ [x])).
Definition append_codes (l : loc) (x : list Z) : M unit :=
  v ← read_codess l; write l (OCodess (v ++ [x])).
Definition append_dict (l : loc) (x : probs) : M unit :=
  v ← read_dicts l; write l (ODicts (v ++ [x])).

(** [for x in xs: body] *)
Fixpoint for_ {A} (xs : list A) (body : A → M unit) : M unit :=
  match xs with
  | [] => mret tt
  | x :: xs' => body x;; for_ xs' body
  end.

(** [xs[i]] *)
Definition index {A} (xs : list A) (i : nat) : result A :=
  match xs !! i with Some x => inr x | None => inl IndexError end.

(** [d[k]] on a dict *)
Definition getitem `{Countable K} {V} (d : gmap K V) (k : K) : result V :=
  match d !! k with Some v => inr v | None => inl KeyError end.

(** [dict(pairs)] and dict comprehensions: a later pair overrides an
    earlier one with the same key. *)
Definition dict `{Countable K} {V} (kvs : list (K * V)) : gmap K V :=
  foldl (λ d kv, <[kv.1 := kv.2]> d) ∅ kvs.

(** [enumerate(xs)] *)
Definition enumerate {A} (xs : list A) : list (nat * A) :=
  zip (seq 0 (length xs)) xs.

(** Reading a model file, and running a loaded model. *)
Definition load (path : string) : M artifact :=
  λ w, (match disk w path with Some a => inr a | None => inl OSError end,
        emit (EvLoad path) w).

Definition predict (NN : artifact) (x : tensor) : M (list (list Q)) :=
  λ w, (NN x, emit (EvPredict x) w).

(** ** What the processors import

    Helpers of this repository that live outside the two processors
    ([fink_science.cats.utilities], [fink_science.t2.utilities]) and the
    calls into external libraries (fink_utils, astronet, pandas).  They
    are arbitrary functions of their arguments that may raise. *)

(** A long-format light-curve frame, by rows; a [None] cell is a NaN. *)
Record snana_row := SnanaRow {
  SNID : option Z;
  MJD : option Q;
  FLUXCAL : option Q;
  FLUXCALERR : option Q;
  FLT : option string
}.

(** The same frame under the column names the processor gives it; the
    column [index] exists once [reset_index] has run. *)
Record lc_row := LcRow {
  r_index : option nat;
  r_object_id : option Z;
  r_mjd : option Q;
  r_flux : option Q;
  r_flux_error : option Q;
  r_filter : option string
}.

Class Libs := {
  (* os.path.dirname(os.path.abspath(fink_science.__file__)) *)
  curdir : string;
  (* fink_science.cats.utilities.norm_column *)
  norm_column : list Q → result (list Q);
  (* fink_science.t2.utilities.T2_COLS *)
  T2_COLS : list string;
  (* the default model file behind fink_science.t2.utilities.get_lite_model *)
  t2_default_model : string;
  (* fink_science.t2.utilities.apply_selection_cuts_ztf
       (magpsf, cdsxmatch, jd, jdstarthist, roid) *)
  apply_selection_cuts_ztf :
    list (list Q) → list string → list (list Q) → list Q → list Z →
    result (list bool);
  (* fink_utils.data.utils.format_data_as_snana
       (jd, magpsf, sigmapsf, fid, candid, mask, filter_conversion_dic);
     the rows come with their index labels *)
  format_data_as_snana :
    list (list Q) → list (list Q) → list (list Q) → list (list Z) → list Z →
    list bool → gmap Z string → result (list (nat * snana_row));
  (* astronet.preprocess.generate_gp_all_objects
       (object_list, obs_transient, pb_wavelengths) *)
  generate_gp_all_objects :
    list Z → list (nat * lc_row) → gmap string Q → result frame;
  (* astronet.preprocess.robust_scale(df, cols): the frame it leaves in [df] *)
  robust_scale : frame → gset string → result frame;
  (* np.asarray(df[cols]).astype("float32") *)
  frame_values : frame → gset string → result (list (list Q))
}.

(** * CATS: [fink_science/cats/processor.py] *)

Module Cats.
Section predict_nn.
Context `{Libs}.

Definition filter_dict : gmap string Z :=
  dict [("u", 1); ("g", 2); ("r", 3); ("i", 4); ("z", 5); ("Y", 6)]%Z.

(** [a.astype(np.int16)]: two's complement wrap-around to 16 bits. *)
Definition astype_int16 (z : Z) : Z := ((z + 32768) mod 65536 - 32768)%Z.

(** [np.asarray(a, dtype=np.uint8)]: wrap-around to 8 bits. *)
Definition astype_uint8 (z : Z) : Z := (z mod 256)%Z.

(** [mjds - mjds[0]] *)
Definition rescale (mjds : list Q) : result (list Q) :=
  t0 ← index mjds 0; mret ((λ t, t - t0)%Q <$> mjds).

(** [keras.utils.pad_sequences(seqs, maxlen=maxlen, value=value,
    padding="post", dtype=dtype)] on 1-D sequences.  Every row starts as
    [maxlen] copies of [value]; the default [truncating="pre"] keeps the
    last [maxlen] entries of a longer sequence, which are cast to [dtype]
    and written at the start of the row. *)
Definition pad_sequence {A B} (cast : A → B) (maxlen : nat) (value : B)
    (s : list A) : list B :=
  let trunc := cast <$> drop (length s - maxlen) s in
  trunc ++ replicate (maxlen - length trunc) value.

Definition pad_sequences {A B} (cast : A → B) (maxlen : nat) (value : B)
    (seqs : list (list A)) : list (list B) :=
  pad_sequence cast maxlen value <$> seqs.

(** [a[..., None]] on a 2-D array *)
Definition expand_last (a : list (list Q)) : tensor :=
  (λ row : list Q, (λ x, [x]) <$> row) <$> a.

(** [np.concatenate([a, b], axis=-1)] on 3-D arrays: the two leading
    dimensions must agree. *)
Fixpoint concat_steps (r s : list (list Q)) : result (list (list Q)) :=
  match r, s with
  | [], [] => inr []
  | x :: r', y :: s' => t ← concat_steps r' s'; mret ((x ++ y) :: t)
  | _, _ => inl ValueError
  end.

Fixpoint concat_rows (a b : tensor) : result tensor :=
  match a, b with
  | [], [] => inr []
  | r :: a', s :: b' =>
      t ← concat_steps r s; u ← concat_rows a' b'; mret (t :: u)
  | _, _ => inl ValueError
  end.

(** [np.concatenate(arrs, axis=-1)] *)
Fixpoint concatenate (arrs : list tensor) : result tensor :=
  match arrs with
  | [] => inl ValueError
  | [a] => inr a
  | a :: rest => b ← concatenate rest; concat_rows a b
  end.

Definition default_model : string :=
  curdir +:+ "/data/models/cats_models/cats_small_nometa_serial.keras".

(** The body of the loop over [enumerate(midpointTai)]. *)
Definition collect (filterName mjd filters : loc) (it : nat * list Q) : M unit :=
  let '(i, mjds) := it in
  if decide (0 < length mjds) then
    names_col ← read_namess filterName;
    names ← lift (index names_col i);
    codes ← lift (mapM (getitem filter_dict) names);
    append_codes filters (astype_int16 <$> codes);;
    shifted ← lift (rescale mjds);
    append_floats mjd shifted
  else mret tt.

Definition predict_nn (midpointTai psFlux psFluxErr filterName : loc)
    (model : option loc) : M (list (list Q)) :=
  mjd ← alloc (OFloatss []);
  filters ← alloc (OCodess []);
  times ← read_floatss midpointTai;
  for_ (enumerate times) (collect filterName mjd filters);;
  psFlux_v ← read_floatss psFlux;
  flux ← lift (mapM norm_column psFlux_v);
  psFluxErr_v ← read_floatss psFluxErr;
  error ← lift (mapM norm_column psFluxErr_v);
  let flux := pad_sequences id 395 (-999)%Q flux in
  mjd_v ← read_floatss mjd;
  let mjd := pad_sequences id 395 (-999)%Q mjd_v in
  let error := pad_sequences id 395 (-999)%Q error in
  filters_v ← read_codess filters;
  let band := pad_sequences astype_uint8 395 0%Z filters_v in
  lc ← lift (concatenate
               [expand_last mjd; expand_last flux; expand_last error;
                expand_last ((λ row : list Z, inject_Z <$> row) <$> band)]);
  model_path ← match model with
               | None => mret default_model
               | Some model => paths ← read_strs model; lift (index paths 0)
               end;
  NN ← load model_path;
  preds ← predict NN lc;
  mret preds.

End predict_nn.
End Cats.

(** * T2: [fink_science/t2/processor.py] *)

Module T2.
Section t2.
Context `{Libs}.

(** [col[mask]] with a boolean mask aligned with the column. *)
Fixpoint getitem_mask {A} (xs : list A) (mask : list bool) : result (list A) :=
  match xs, mask with
  | [], [] => inr []
  | x :: xs', b :: mask' =>
      rest ← getitem_mask xs' mask';
      mret (if b then x :: rest else rest)
  | _, _ => inl IndexError
  end.

(** [arr[mask] = vals]: the values go, in order, to the positions where
    the mask holds; there must be one value per such position. *)
Fixpoint setitem_mask {A} (arr : list A) (mask : list bool) (vals : list A)
    : result (list A) :=
  match arr, mask with
  | [], [] => match vals with [] => inr [] | _ => inl ValueError end
  | x :: arr', true :: mask' =>
      match vals with
      | v :: vals' => rest ← setitem_mask arr' mask' vals'; mret (v :: rest)
      | [] => inl ValueError
      end
  | x :: arr', false :: mask' =>
      rest ← setitem_mask arr' mask' vals; mret (x :: rest)
  | _, _ => inl IndexError
  end.

Definition ZTF_FILTER_MAP : gmap Z string :=
  dict [(1, "ztfg"); (2, "ztfr"); (3, "ztfi")]%Z.

Definition ZTF_PB_WAVELENGTHS : gmap string Q :=
  dict [("ztfg", 480479 # 100); ("ztfr", 643692 # 100);
        ("ztfi", 796822 # 100)]%Q.

(** [{k: -1.0 for k in T2_COLS}] *)
Definition default : probs := dict ((λ k, (k, (-1)%Q)) <$> T2_COLS).

(** [[x[0] - i for i in x]]: [x[0]] is evaluated once per element, so an
    empty [x] gives an empty list. *)
Definition rescale (x : list Q) : list Q := (λ i, hd 0 x - i)%Q <$> x.

(** [pdf.rename(columns={"SNID": "object_id", "MJD": "mjd",
    "FLUXCAL": "flux", "FLUXCALERR": "flux_error", "FLT": "filter"})] *)
Definition rename (pdf : list (nat * snana_row)) : list (nat * lc_row) :=
  (λ lr : nat * snana_row,
     (lr.1, LcRow None (SNID lr.2) (MJD lr.2) (FLUXCAL lr.2)
                  (FLUXCALERR lr.2) (FLT lr.2))) <$> pdf.

(** [pdf.dropna()], before the column [index] exists. *)
Definition notna (r : lc_row) : bool :=
  bool_decide (is_Some (r_object_id r)) && bool_decide (is_Some (r_mjd r))
  && bool_decide (is_Some (r_flux r)) && bool_decide (is_Some (r_flux_error r))
  && bool_decide (is_Some (r_filter r)).

Definition dropna (pdf : list (nat * lc_row)) : list (nat * lc_row) :=
  filter (λ lr, notna lr.2 = true) pdf.

(** [pdf.reset_index()]: the old labels become the column [index]. *)
Definition reset_index (pdf : list (nat * lc_row)) : list (nat * lc_row) :=
  imap (λ i (lr : nat * lc_row),
          (i, LcRow (Some lr.1) (r_object_id lr.2) (r_mjd lr.2) (r_flux lr.2)
                    (r_flux_error lr.2) (r_filter lr.2))) pdf.

(** Modelled from the spec: [get_lite_model] of [fink_science.t2.utilities]
    is not among the sources.  The spec says that model artifacts are read
    from a fixed relative path by default, or from an override path
    supplied per batch. *)
Definition get_lite_model (model_name : option string) : M artifact :=
  load (match model_name with
        | None => t2_default_model
        | Some path => path
        end).

(** The body of the loop over [candid[mask]]: one object at a time. *)
Definition classify (pdf : list (nat * lc_row)) (model : artifact)
    (vals : loc) (candid_ : Z) : M unit :=
  let sub := filter (λ lr, r_object_id lr.2 = Some candid_) pdf in
  if decide (length (remove_dups (r_filter <$> sub.*2)) ≠ 2) then
    append_dict vals default
  else
    gp ← lift (generate_gp_all_objects [candid_] sub ZTF_PB_WAVELENGTHS);
    df_gp_mean ← alloc (OFrame gp);
    let cols : gset string :=
      dom ZTF_PB_WAVELENGTHS ∩ list_to_set (columns gp) in
    scaled ← lift (robust_scale gp cols);
    write df_gp_mean (OFrame scaled);;
    df ← read_frame df_gp_mean;
    X ← lift (frame_values df cols);
    let X : tensor := [X] in
    y_preds ← predict model X;
    let values := y_preds in
    row ← lift (index values 0);
    let predictions := dict (zip T2_COLS row) in
    append_dict vals predictions.

Definition t2 (candid jd fid magpsf sigmapsf roid cdsxmatch jdstarthist : loc)
    (model_name : option loc) : M (list probs) :=
  jd_v ← read_floatss jd;
  to_return ← alloc (ODicts ((λ _, default) <$> seq 0 (length jd_v)));
  magpsf_v ← read_floatss magpsf;
  cdsxmatch_v ← read_strs cdsxmatch;
  jd_v ← read_floatss jd;
  jdstarthist_v ← read_floats jdstarthist;
  roid_v ← read_ints roid;
  mask ← lift (apply_selection_cuts_ztf
                 magpsf_v cdsxmatch_v jd_v jdstarthist_v roid_v);
  jd_v ← read_floatss jd;
  selected ← lift (getitem_mask jd_v mask);
  if decide (length selected = 0) then
    read_dicts to_return
  else
    jd_v ← read_floatss jd;
    let dates := rescale <$> jd_v in
    magpsf_v ← read_floatss magpsf;
    sigmapsf_v ← read_floatss sigmapsf;
    fid_v ← read_codess fid;
    candid_v ← read_ints candid;
    pdf ← lift (format_data_as_snana
                  dates magpsf_v sigmapsf_v fid_v candid_v mask ZTF_FILTER_MAP);
    let pdf := rename pdf in
    let pdf := dropna pdf in
    let pdf := reset_index pdf in
    model ← match model_name with
            | Some model_name =>
                names ← read_strs model_name;
                name ← lift (index names 0);
                get_lite_model (Some name)
            | None => get_lite_model None
            end;
    vals ← alloc (ODicts []);
    candid_v ← read_ints candid;
    objects ← lift (getitem_mask candid_v mask);
    for_ objects (classify pdf model vals);;
    vals_v ← read_dicts vals;
    arr ← read_dicts to_return;
    arr ← lift (setitem_mask arr mask vals_v);
    write to_return (ODicts arr);;
    read_dicts to_return.

End t2.
End T2.


(** * Specifications *)

(** ** What a call leaves of the world it was given

    [kept w0 w]: every object that was on the heap at [w0] is still there,
    unchanged, at [w], and the disk is the same. *)

Definition kept (w0 w : world) : Prop :=
  take (length (heap w0)) (heap w) = heap w0 ∧ disk w = disk w0.

(** [keeps w0 m]: running [m] never touches what [w0] held, whether it
    returns or raises. *)
Definition keeps {A} (w0 : world) (m : M A) : Prop :=
  ∀ w, kept w0 w → kept w0 (m w).2.

(** ** Batches

    The values of the input columns of one call, and what it means for a
    world to hold them at the locations the call is given. *)

Record nn_batch := NNBatch {
  nn_midpointTai : list (list Q);
  nn_psFlux : list (list Q);
  nn_psFluxErr : list (list Q);
  nn_filterName : list (list string);
  nn_model : option (list string)
}.

Definition holds_column (w : world) (col : option loc) (v : option (list string))
    : Prop :=
  match col, v with
  | None, None => True
  | Some l, Some paths => heap w !! l = Some (OStrs paths)
  | _, _ => False
  end.

Definition nn_holds (w : world) (midpointTai psFlux psFluxErr filterName : loc)
    (model : option loc) (b : nn_batch) : Prop :=
  heap w !! midpointTai = Some (OFloatss (nn_midpointTai b)) ∧
  heap w !! psFlux = Some (OFloatss (nn_psFlux b)) ∧
  heap w !! psFluxErr = Some (OFloatss (nn_psFluxErr b)) ∧
  heap w !! filterName = Some (ONamess (nn_filterName b)) ∧
  holds_column w model (nn_model b).

(** The columns of a batch have one entry per object. *)
Definition nn_aligned (b : nn_batch) : Prop :=
  length (nn_psFlux b) = length (nn_midpointTai b) ∧
  length (nn_psFluxErr b) = length (nn_midpointTai b) ∧
  length (nn_filterName b) = length (nn_midpointTai b).

Record t2_batch := T2Batch {
  t2_candid : list Z;
  t2_jd : list (list Q);
  t2_fid : list (list Z);
  t2_magpsf : list (list Q);
  t2_sigmapsf : list (list Q);
  t2_roid : list Z;
  t2_cdsxmatch : list string;
  t2_jdstarthist : list Q;
  t2_model_name : option (list string)
}.

Definition t2_holds (w : world)
    (candid jd fid magpsf sigmapsf roid cdsxmatch jdstarthist : loc)
    (model_name : option loc) (b : t2_batch) : Prop :=
  heap w !! candid = Some (OInts (t2_candid b)) ∧
  heap w !! jd = Some (OFloatss (t2_jd b)) ∧
  heap w !! fid = Some (OCodess (t2_fid b)) ∧
  heap w !! magpsf = Some (OFloatss (t2_magpsf b)) ∧
  heap w !! sigmapsf = Some (OFloatss (t2_sigmapsf b)) ∧
  heap w !! roid = Some (OInts (t2_roid b)) ∧
  heap w !! cdsxmatch = Some (OStrs (t2_cdsxmatch b)) ∧
  heap w !! jdstarthist = Some (OFloats (t2_jdstarthist b)) ∧
  holds_column w model_name (t2_model_name b).

(** The events a run added to the log, and the model files among them. *)
Definition new_events (w w' : world) : list event :=
  drop (length (log w)) (log w').

Definition loads (evs : list event) : list string :=
  omap (λ e, match e with EvLoad path => Some path | EvPredict _ => None end)
       evs.

Definition fed (evs : list event) : list tensor :=
  omap (λ e, match e with EvPredict x => Some x | EvLoad _ => None end) evs.

Definition open_model (d : string → option artifact) (path : string)
    : result artifact :=
  match d path with Some a => inr a | None => inl OSError end.

(** Shapes. *)
Definition shape3 (x : tensor) (n steps channels : nat) : Prop :=
  length x = n ∧
  Forall (λ row, length row = steps ∧
                 Forall (λ st : list Q, length st = channels) row) x.

(** Channel [c] of a row of steps, and of a tensor: [x[..., c]]. *)
Definition row_channel (c : nat) (row : list (list Q)) : list Q :=
  (λ st : list Q, nth c st 0%Q) <$> row.

Definition channel (c : nat) (x : tensor) : list (list Q) :=
  row_channel c <$> x.

(** One row of a tensor stacked from four channels. *)
Definition steps4 (ra rb rc rd : list Q) : list (list Q) :=
  zip_with app ((λ x, [x]) <$> ra)
    (zip_with app ((λ x, [x]) <$> rb)
       (zip_with app ((λ x, [x]) <$> rc) ((λ x, [x]) <$> rd))).

(** [row] is the series [s], cut to its last [maxlen] entries when it is
    longer, then filled up to exactly [maxlen] entries with [value]. *)
Definition post_padded {A} (maxlen : nat) (value : A) (s row : list A) : Prop :=
  length row = maxlen ∧
  row = drop (length s - maxlen) s ++ replicate (maxlen - length s) value.

(** ** What [predict_nn] computes from a batch

    The same steps as [Cats.predict_nn], in the same order, on the values
    of the columns; [predict_nn_run] below proves the two agree. *)

Section nn_outcome.
Context `{Libs}.

(** One turn of the loop: nothing for an empty record, else the codes and
    the shifted times that are appended. *)
Definition collect_item (names_col : list (list string)) (it : nat * list Q)
    : result (option (list Z * list Q)) :=
  if decide (0 < length it.2) then
    names ← index names_col it.1;
    codes ← mapM (getitem Cats.filter_dict) names;
    shifted ← Cats.rescale it.2;
    mret (Some (Cats.astype_int16 <$> codes, shifted))
  else mret None.

Definition stacked (mjd flux error : list (list Q)) (filters : list (list Z))
    : result tensor :=
  let flux := Cats.pad_sequences id 395 (-999)%Q flux in
  let mjd := Cats.pad_sequences id 395 (-999)%Q mjd in
  let error := Cats.pad_sequences id 395 (-999)%Q error in
  let band := Cats.pad_sequences Cats.astype_uint8 395 0%Z filters in
  Cats.concatenate
    [Cats.expand_last mjd; Cats.expand_last flux; Cats.expand_last error;
     Cats.expand_last ((λ row : list Z, inject_Z <$> row) <$> band)].

Definition nn_tensor (b : nn_batch) : result tensor :=
  items ← mapM (collect_item (nn_filterName b)) (enumerate (nn_midpointTai b));
  flux ← mapM norm_column (nn_psFlux b);
  error ← mapM norm_column (nn_psFluxErr b);
  stacked (omap id items).*2 flux error (omap id items).*1.

Definition nn_model_path (b : nn_batch) : result string :=
  match nn_model b with
  | None => inr Cats.default_model
  | Some paths => index paths 0
  end.

Definition nn_outcome (b : nn_batch) (d : string → option artifact)
    : result (list (list Q)) :=
  lc ← nn_tensor b;
  path ← nn_model_path b;
  NN ← open_model d path;
  NN lc.

Definition nn_trace (b : nn_batch) (d : string → option artifact)
    : list event :=
  match nn_tensor b with
  | inl _ => []
  | inr lc =>
      match nn_model_path b with
      | inl _ => []
      | inr path =>
          EvLoad path ::
          match d path with Some _ => [EvPredict lc] | None => [] end
      end
  end.

End nn_outcome.

(** ** What [t2] computes from a batch *)

Section t2_outcome.
Context `{Libs}.

Definition object_rows (pdf : list (nat * lc_row)) (candid_ : Z)
    : list (nat * lc_row) :=
  filter (λ lr, r_object_id lr.2 = Some candid_) pdf.

(** [len(np.unique(sub["filter"]))] *)
Definition n_filters (sub : list (nat * lc_row)) : nat :=
  length (remove_dups (r_filter <$> sub.*2)).

(** The tensor one object is classified on. *)
Definition features (candid_ : Z) (sub : list (nat * lc_row)) : result tensor :=
  gp ← generate_gp_all_objects [candid_] sub T2.ZTF_PB_WAVELENGTHS;
  let cols : gset string :=
    dom T2.ZTF_PB_WAVELENGTHS ∩ list_to_set (columns gp) in
  scaled ← robust_scale gp cols;
  X ← frame_values scaled cols;
  mret [X].

Definition object_probs (pdf : list (nat * lc_row)) (model : artifact)
    (candid_ : Z) : result probs :=
  let sub := object_rows pdf candid_ in
  if decide (n_filters sub ≠ 2) then inr T2.default
  else
    X ← features candid_ sub;
    values ← model X;
    row ← index values 0;
    mret (dict (zip T2_COLS row)).

Definition t2_mask (b : t2_batch) : result (list bool) :=
  apply_selection_cuts_ztf (t2_magpsf b) (t2_cdsxmatch b) (t2_jd b)
    (t2_jdstarthist b) (t2_roid b).

Definition t2_pdf (b : t2_batch) (mask : list bool)
    : result (list (nat * lc_row)) :=
  raw ← format_data_as_snana (T2.rescale <$> t2_jd b) (t2_magpsf b)
          (t2_sigmapsf b) (t2_fid b) (t2_candid b) mask T2.ZTF_FILTER_MAP;
  mret (T2.reset_index (T2.dropna (T2.rename raw))).

Definition t2_model_path (b : t2_batch) : result string :=
  match t2_model_name b with
  | None => inr t2_default_model
  | Some names => index names 0
  end.

(** The steps after the early return. *)
Definition t2_classified (b : t2_batch) (d : string → option artifact)
    (mask : list bool) : result (list probs) :=
  pdf ← t2_pdf b mask;
  path ← t2_model_path b;
  model ← open_model d path;
  objects ← T2.getitem_mask (t2_candid b) mask;
  vals ← mapM (object_probs pdf model) objects;
  T2.setitem_mask (replicate (length (t2_jd b)) T2.default) mask vals.

Definition t2_outcome (b : t2_batch) (d : string → option artifact)
    : result (list probs) :=
  mask ← t2_mask b;
  selected ← T2.getitem_mask (t2_jd b) mask;
  if decide (length selected = 0)
  then inr (replicate (length (t2_jd b)) T2.default)
  else t2_classified b d mask.

(** The file the call reads its model from, when it gets that far. *)
Definition t2_load_path (b : t2_batch) : option string :=
  match t2_mask b with
  | inr mask =>
      match T2.getitem_mask (t2_jd b) mask with
      | inr selected =>
          if decide (length selected = 0) then None
          else match t2_pdf b mask, t2_model_path b with
               | inr _, inr path => Some path
               | _, _ => None
               end
      | inl _ => None
      end
  | inl _ => None
  end.

End t2_outcome.


(** Where a call is to take its model from: the fixed default file when
    there is no model column, else the first entry of the column. *)
Definition model_source (default_path : string) (column : option (list string))
    (path : string) : Prop :=
  match column with
  | None => path = default_path
  | Some paths => paths !! 0 = Some path
  end.

(** ** A small instance to run the processors on

    Stand-ins for the imported helpers, a disk with one model, and a few
    batches.  They are only used to evaluate the embedding on concrete
    inputs. *)

Module Sample.

Definition rows_of (conv : gmap Z string) (c : Z) (dates mags sigs : list Q)
    (fids : list Z) : list snana_row :=
  zip_with (λ (tm : Q * Q) (sf : Q * Z),
              SnanaRow (Some c) (Some tm.1) (Some tm.2) (Some sf.1)
                       (conv !! sf.2))
           (zip dates mags) (zip sigs fids).

Definition format (dates mags sigs : list (list Q)) (fids : list (list Z))
    (candid : list Z) (mask : list bool) (conv : gmap Z string)
    : result (list (nat * snana_row)) :=
  inr (imap (λ i r, (i, r))
         (mjoin ((λ i,
                    if default false (mask !! i)
                    then rows_of conv (default 0%Z (candid !! i))
                           (default [] (dates !! i)) (default [] (mags !! i))
                           (default [] (sigs !! i)) (default [] (fids !! i))
                    else []) <$> seq 0 (length candid)))).

#[global] Instance libs : Libs := {|
  curdir := "/opt/fink_science";
  norm_column := λ col, inr col;
  T2_COLS := ["SNIa"; "AGN"];
  t2_default_model := "/opt/fink_science/data/models/t2/model.tflite";
  apply_selection_cuts_ztf := λ magpsf _ _ _ _,
    inr ((λ x : list Q, bool_decide (2 ≤ length x)) <$> magpsf);
  format_data_as_snana := format;
  generate_gp_all_objects := λ _ _ _,
    inr [("mjd", [0; 1]); ("ztfg", [1; 2]); ("ztfr", [3; 4])]%Q;
  robust_scale := λ df _, inr df;
  frame_values := λ df cols,
    inr (snd <$> filter (λ c, c.1 ∈ cols) df)
|}.

(** The model on disk gives every row the same two probabilities. *)
Definition model : artifact := λ x, inr ((λ _, [1 # 4; 3 # 4]%Q) <$> x).

Definition files : string → option artifact :=
  λ path,
    if decide (path = Cats.default_model ∨ path = t2_default_model)
    then Some model else None.

(** A world with a [predict_nn] batch at locations 0 to 3 (two objects
    with two and one observations) and a [t2] batch at locations 4 to 11
    (three alerts: the first has both filters, the second a single
    measurement, so the cuts exclude it, the third a single filter). *)
Definition world_with (times : list (list Q)) (names : list (list string))
    (magpsf : list (list Q)) : world :=
  World [OFloatss times;
         OFloatss [[0; 1]; [1]]%Q;
         OFloatss [[1; 0]; [1]]%Q;
         ONamess names;
         OInts [10; 11; 12]%Z;
         OFloatss [[1; 2; 3]; [5]; [7; 8]]%Q;
         OCodess [[1; 2; 1]; [1]; [1; 1]]%Z;
         OFloatss magpsf;
         OFloatss [[1; 1; 1]; [1]; [1; 1]]%Q;
         OInts [0; 0; 0]%Z;
         OStrs ["Unknown"; "Unknown"; "Unknown"];
         OFloats [0; 0; 0]%Q]
        files [].

Definition nn_with (times : list (list Q)) (names : list (list string))
    : nn_batch :=
  NNBatch times [[0; 1]; [1]]%Q [[1; 0]; [1]]%Q names None.

Definition t2_with (magpsf : list (list Q)) : t2_batch :=
  T2Batch [10; 11; 12]%Z [[1; 2; 3]; [5]; [7; 8]]%Q
          [[1; 2; 1]; [1]; [1; 1]]%Z magpsf
          [[1; 1; 1]; [1]; [1; 1]]%Q [0; 0; 0]%Z
          ["Unknown"; "Unknown"; "Unknown"] [0; 0; 0]%Q None.

Definition times : list (list Q) := [[59000; 59002]; [59001]]%Q.
Definition names : list (list string) := [["g"; "r"]; ["i"]].
Definition magpsf : list (list Q) := [[18; 19; 18]; [20]; [17; 17]]%Q.

Definition good : world := world_with times names magpsf.
Definition nn_sample : nn_batch := nn_with times names.
Definition t2_sample : t2_batch := t2_with magpsf.

(** The same batch with no observation for the first object. *)
Definition times_empty : list (list Q) := [[]; [59001]]%Q.
Definition with_empty : world := world_with times_empty names magpsf.
Definition nn_sample_empty : nn_batch := nn_with times_empty names.

(** The same batch with a filter name that is not an LSST band. *)
Definition names_unknown : list (list string) := [["g"; "r"]; ["x"]].
Definition with_unknown : world := world_with times names_unknown magpsf.
Definition nn_sample_unknown : nn_batch := nn_with times names_unknown.

(** The same batch with a single measurement per alert: no alert passes
    the cuts. *)
Definition magpsf_short : list (list Q) := [[18]; [20]; [17]]%Q.
Definition with_none : world := world_with times names magpsf_short.
Definition t2_sample_none : t2_batch := t2_with magpsf_short.

End Sample.

(** * The rest of the T2 processor *)

(** ** [maxclass]: [fink_science/t2/processor.py], lines 39-43

    [dic.apply(lambda x: extract_maxclass(x))]; [extract_maxclass] comes
    from [fink_science.t2.utilities] and is any function of a mapping that
    may raise. *)
Definition maxclass (extract_maxclass : probs → result string) (dic : loc)
    : M (list string) :=
  dic_v ← read_dicts dic;
  max_class_series ← lift (mapM extract_maxclass dic_v);
  mret max_class_series.

(** ** What [t2] feeds its model *)

Section t2_trace.
Context `{Libs}.

(** The tensor the loop runs the model on for one object, if it gets
    there. *)
Definition object_fed (pdf : list (nat * lc_row)) (candid_ : Z) : list tensor :=
  if decide (n_filters (object_rows pdf candid_) ≠ 2) then []
  else match features candid_ (object_rows pdf candid_) with
       | inr X => [X]
       | inl _ => []
       end.

(** The loop stops at the first object that raises. *)
Fixpoint objects_fed (pdf : list (nat * lc_row)) (model : artifact)
    (objects : list Z) : list tensor :=
  match objects with
  | [] => []
  | candid_ :: rest =>
      object_fed pdf candid_ ++
      match object_probs pdf model candid_ with
      | inr _ => objects_fed pdf model rest
      | inl _ => []
      end
  end.

Definition t2_trace (b : t2_batch) (d : string → option artifact)
    : list event :=
  match t2_mask b with
  | inr mask =>
      match T2.getitem_mask (t2_jd b) mask with
      | inr selected =>
          if decide (length selected = 0) then []
          else
            match t2_pdf b mask, t2_model_path b with
            | inr pdf, inr path =>
                EvLoad path ::
                match d path, T2.getitem_mask (t2_candid b) mask with
                | Some model, inr objects =>
                    EvPredict <$> objects_fed pdf model objects
                | _, _ => []
                end
            | _, _ => []
            end
      | inl _ => []
      end
  | inl _ => []
  end.

End t2_trace.

(** The cells of a snana row that [dropna] looks at are all present. *)
Definition complete (r : snana_row) : Prop :=
  is_Some (SNID r) ∧ is_Some (MJD r) ∧ is_Some (FLUXCAL r) ∧
  is_Some (FLUXCALERR r) ∧ is_Some (FLT r).

(** ** More sample data *)

Module SampleMore.

(** An empty batch, with and without a model column. *)
Definition empty_world : world :=
  World [OFloatss []; OFloatss []; OFloatss []; ONamess []; OStrs []]
        Sample.files [].

Definition nn_empty (model : option (list string)) : nn_batch :=
  NNBatch [] [] [] [] model.

(** One object with 400 observations, one per day, in the g band. *)
Definition long_times : list Q :=
  (λ n, inject_Z (59000 + Z.of_nat n)) <$> seq 0 400.

Definition long_world : world :=
  World [OFloatss [long_times]; OFloatss [long_times]; OFloatss [long_times];
         ONamess [replicate 400 "g"]]
        Sample.files [].

Definition nn_long : nn_batch :=
  NNBatch [long_times] [long_times] [long_times] [replicate 400 "g"] None.

(** Two alerts that share a candidate id. *)
Definition twin_world : world :=
  World [OInts [10; 10]%Z;
         OFloatss [[1; 2; 3]; [1; 2; 3]]%Q;
         OCodess [[1; 2; 1]; [1; 2; 1]]%Z;
         OFloatss [[18; 19; 18]; [18; 19; 18]]%Q;
         OFloatss [[1; 1; 1]; [1; 1; 1]]%Q;
         OInts [0; 0]%Z;
         OStrs ["Unknown"; "Unknown"];
         OFloats [0; 0]%Q]
        Sample.files [].

Definition t2_twin : t2_batch :=
  T2Batch [10; 10]%Z [[1; 2; 3]; [1; 2; 3]]%Q [[1; 2; 1]; [1; 2; 1]]%Z
          [[18; 19; 18]; [18; 19; 18]]%Q [[1; 1; 1]; [1; 1; 1]]%Q [0; 0]%Z
          ["Unknown"; "Unknown"] [0; 0]%Q None.

(** A stand-in for [extract_maxclass]: the label with the larger value. *)
Definition extract (x : probs) : result string :=
  match x !! "SNIa", x !! "AGN" with
  | Some p, Some q => inr (if Qle_bool q p then "SNIa" else "AGN")
  | _, _ => inl KeyError
  end.

(** A frame with a row that lacks its flux. *)
Definition raw : list (nat * snana_row) :=
  [(0, SnanaRow (Some 10%Z) (Some 0%Q) (Some 1%Q) (Some 1%Q) (Some "ztfg"));
   (1, SnanaRow (Some 11%Z) (Some 0%Q) None (Some 1%Q) (Some "ztfg"));
   (2, SnanaRow (Some 10%Z) (Some (-1)%Q) (Some 2%Q) (Some 1%Q) (Some "ztfr"))].

End SampleMore.
(** * Proofs *)

(** ** What a call leaves of the world it was given *)


Lemma kept_refl w : kept w w.
Proof. split; [apply firstn_all | done]. Qed.

Lemma kept_length w0 w : kept w0 w → length (heap w0) ≤ length (heap w).
Proof.
  intros [Hh _]. rewrite <- Hh at 1. rewrite length_take. lia.
Qed.


Lemma kept_trans w0 w1 w2 : kept w0 w1 → kept w1 w2 → kept w0 w2.
Proof.
  intros H01 H12. pose proof (kept_length _ _ H01) as Hlen.
  destruct H01 as [H1 D1], H12 as [H2 D2]. split; [|congruence].
  transitivity (take (length (heap w0)) (take (length (heap w1)) (heap w2))).
  - rewrite take_take. f_equal. lia.
  - by rewrite H2.
Qed.

Lemma kept_emit w0 w e : kept w0 w → kept w0 (emit e w).
Proof. intros [? ?]. by split. Qed.

Lemma kept_alloc w0 w o : kept w0 w → kept w0 (alloc o w).2.
Proof.
  intros Hk. pose proof (kept_length _ _ Hk). destruct Hk as [Hh Hd].
  split; [|done]. simpl. by rewrite take_app_le.
Qed.

Lemma kept_write w0 w l o :
  length (heap w0) ≤ l → kept w0 w → kept w0 (write l o w).2.
Proof.
  intros Hl [Hh Hd]. unfold write. case_decide; [|by split].
  split; [|done]. simpl. by rewrite take_insert_ge.
Qed.


Section keeps.
Context {A B : Type} (w0 : world).
Implicit Types (m : M A) (f : A → M B).

Lemma keeps_ret (x : A) : keeps w0 (mret x).
Proof. by intros w Hk. Qed.

Lemma keeps_raise e : keeps w0 (raise e : M A).
Proof. by intros w Hk. Qed.

Lemma keeps_lift (r : result A) : keeps w0 (lift r).
Proof. by intros w Hk. Qed.

Lemma keeps_bind_val (V : A → Prop) m f :
  keeps w0 m →
  (∀ w x, kept w0 w → (m w).1 = inr x → V x) →
  (∀ x, V x → keeps w0 (f x)) →
  keeps w0 (m ≫= f).
Proof.
  intros Hm HV Hf w Hk. unfold mbind, M_bind.
  specialize (Hm w Hk). specialize (HV w).
  destruct (m w) as [[e|x] w']; simpl in *; [done|].
  apply (Hf x); [by apply HV | done].
Qed.

Lemma keeps_bind m f :
  keeps w0 m → (∀ x, keeps w0 (f x)) → keeps w0 (m ≫= f).
Proof.
  intros Hm Hf. apply (keeps_bind_val (λ _, True)); auto.
Qed.

End keeps.

Lemma keeps_alloc w0 o : keeps w0 (alloc o).
Proof. intros w. apply kept_alloc. Qed.

Lemma alloc_fresh w0 w o l :
  kept w0 w → (alloc o w).1 = inr l → length (heap w0) ≤ l.
Proof.
  intros Hk [= <-]. by apply kept_length.
Qed.

Lemma keeps_read w0 l : keeps w0 (read l).
Proof. intros w Hk. unfold read. by destruct (heap w !! l). Qed.

Lemma keeps_write w0 l o : length (heap w0) ≤ l → keeps w0 (write l o).
Proof. intros Hl w. by apply kept_write. Qed.

Lemma keeps_load w0 path : keeps w0 (load path).
Proof. intros w Hk. by apply kept_emit. Qed.

Lemma keeps_predict w0 NN x : keeps w0 (predict NN x).
Proof. intros w Hk. by apply kept_emit. Qed.

Lemma keeps_for {A} w0 (xs : list A) body :
  (∀ x, keeps w0 (body x)) → keeps w0 (for_ xs body).
Proof.
  intros Hb. induction xs as [|x xs IH]; simpl.
  - apply keeps_ret.
  - apply keeps_bind; auto.
Qed.

(** One step of a frame proof: split a bind, or close a primitive. *)
Ltac keeps_step :=
  first
    [ apply keeps_ret | apply keeps_raise | apply keeps_lift
    | apply keeps_read | apply keeps_load | apply keeps_predict
    | apply keeps_alloc
    | apply keeps_write; lia
    | apply keeps_bind; [|intros ?]
    | match goal with
      | |- keeps _ (match ?o with _ => _ end) => destruct o
      end ].

Lemma keeps_read_floatss w0 l : keeps w0 (read_floatss l).
Proof. unfold read_floatss. repeat keeps_step. Qed.
Lemma keeps_read_codess w0 l : keeps w0 (read_codess l).
Proof. unfold read_codess. repeat keeps_step. Qed.
Lemma keeps_read_namess w0 l : keeps w0 (read_namess l).
Proof. unfold read_namess. repeat keeps_step. Qed.
Lemma keeps_read_floats w0 l : keeps w0 (read_floats l).
Proof. unfold read_floats. repeat keeps_step. Qed.
Lemma keeps_read_ints w0 l : keeps w0 (read_ints l).
Proof. unfold read_ints. repeat keeps_step. Qed.
Lemma keeps_read_strs w0 l : keeps w0 (read_strs l).
Proof. unfold read_strs. repeat keeps_step. Qed.
Lemma keeps_read_dicts w0 l : keeps w0 (read_dicts l).
Proof. unfold read_dicts. repeat keeps_step. Qed.
Lemma keeps_read_frame w0 l : keeps w0 (read_frame l).
Proof. unfold read_frame. repeat keeps_step. Qed.

Lemma keeps_append_floats w0 l x :
  length (heap w0) ≤ l → keeps w0 (append_floats l x).
Proof.
  intros. unfold append_floats.
  apply keeps_bind; [apply keeps_read_floatss | intros ?; keeps_step].
Qed.
Lemma keeps_append_codes w0 l x :
  length (heap w0) ≤ l → keeps w0 (append_codes l x).
Proof.
  intros. unfold append_codes.
  apply keeps_bind; [apply keeps_read_codess | intros ?; keeps_step].
Qed.
Lemma keeps_append_dict w0 l x :
  length (heap w0) ≤ l → keeps w0 (append_dict l x).
Proof.
  intros. unfold append_dict.
  apply keeps_bind; [apply keeps_read_dicts | intros ?; keeps_step].
Qed.

Ltac keeps_auto :=
  repeat first
    [ apply keeps_read_floatss | apply keeps_read_codess
    | apply keeps_read_namess | apply keeps_read_floats
    | apply keeps_read_ints | apply keeps_read_strs
    | apply keeps_read_dicts | apply keeps_read_frame
    | apply keeps_append_floats; lia | apply keeps_append_codes; lia
    | apply keeps_append_dict; lia
    | match goal with
      | |- keeps ?w0 (alloc _ ≫= _) =>
          apply (keeps_bind_val w0 (λ l, length (heap w0) ≤ l))
      end;
        [ apply keeps_alloc
        | intros ? ? ? ?; eapply alloc_fresh; eassumption
        | intros ? ?; cbv beta in * ]
    | keeps_step ].

Lemma keeps_collect `{Libs} w0 filterName mjd filters it :
  length (heap w0) ≤ mjd → length (heap w0) ≤ filters →
  keeps w0 (Cats.collect filterName mjd filters it).
Proof.
  intros. unfold Cats.collect. destruct it as [i mjds].
  case_decide; keeps_auto.
Qed.

Lemma keeps_predict_nn `{Libs} w0 midpointTai psFlux psFluxErr filterName model :
  keeps w0 (Cats.predict_nn midpointTai psFlux psFluxErr filterName model).
Proof.
  unfold Cats.predict_nn. keeps_auto.
  apply keeps_for. intros it. by apply keeps_collect.
Qed.

Lemma keeps_classify `{Libs} w0 pdf model vals c :
  length (heap w0) ≤ vals → keeps w0 (T2.classify pdf model vals c).
Proof.
  intros. unfold T2.classify. case_decide; keeps_auto.
Qed.

Lemma keeps_t2 `{Libs} w0 candid jd fid magpsf sigmapsf roid cdsxmatch
    jdstarthist model_name :
  keeps w0 (T2.t2 candid jd fid magpsf sigmapsf roid cdsxmatch jdstarthist
              model_name).
Proof.
  unfold T2.t2, T2.get_lite_model. keeps_auto.
  all: apply keeps_for; intros c; by apply keeps_classify.
Qed.

(** ** Running the primitives *)

Lemma run_bind {A B} (m : M A) (f : A → M B) w :
  (m ≫= f) w =
  match m w with (inl e, w') => (inl e, w') | (inr x, w') => f x w' end.
Proof. done. Qed.

Lemma run_lift {A B} (r : result A) (f : A → M B) w :
  (lift r ≫= f) w = match r with inl e => (inl e, w) | inr x => f x w end.
Proof. by destruct r. Qed.

Section run_read.
Context (h : list obj) (d : string → option artifact) (lg : list event).
Context (l : loc).

Lemma run_read_floatss x :
  h !! l = Some (OFloatss x) → read_floatss l (World h d lg) = (inr x, World h d lg).
Proof. intros Hl. unfold read_floatss, read, mbind, M_bind. simpl. by rewrite Hl. Qed.

Lemma run_read_codess x :
  h !! l = Some (OCodess x) → read_codess l (World h d lg) = (inr x, World h d lg).
Proof. intros Hl. unfold read_codess, read, mbind, M_bind. simpl. by rewrite Hl. Qed.

Lemma run_read_namess x :
  h !! l = Some (ONamess x) → read_namess l (World h d lg) = (inr x, World h d lg).
Proof. intros Hl. unfold read_namess, read, mbind, M_bind. simpl. by rewrite Hl. Qed.

Lemma run_read_floats x :
  h !! l = Some (OFloats x) → read_floats l (World h d lg) = (inr x, World h d lg).
Proof. intros Hl. unfold read_floats, read, mbind, M_bind. simpl. by rewrite Hl. Qed.

Lemma run_read_ints x :
  h !! l = Some (OInts x) → read_ints l (World h d lg) = (inr x, World h d lg).
Proof. intros Hl. unfold read_ints, read, mbind, M_bind. simpl. by rewrite Hl. Qed.

Lemma run_read_strs x :
  h !! l = Some (OStrs x) → read_strs l (World h d lg) = (inr x, World h d lg).
Proof. intros Hl. unfold read_strs, read, mbind, M_bind. simpl. by rewrite Hl. Qed.

Lemma run_read_dicts x :
  h !! l = Some (ODicts x) → read_dicts l (World h d lg) = (inr x, World h d lg).
Proof. intros Hl. unfold read_dicts, read, mbind, M_bind. simpl. by rewrite Hl. Qed.

Lemma run_read_frame x :
  h !! l = Some (OFrame x) → read_frame l (World h d lg) = (inr x, World h d lg).
Proof. intros Hl. unfold read_frame, read, mbind, M_bind. simpl. by rewrite Hl. Qed.

Lemma run_write o o' :
  h !! l = Some o →
  write l o' (World h d lg) = (inr tt, World (<[l:=o']> h) d lg).
Proof.
  intros Hl. unfold write. simpl.
  apply lookup_lt_Some in Hl. by rewrite decide_True.
Qed.

End run_read.

Lemma run_alloc h d lg o :
  alloc o (World h d lg) = (inr (length h), World (h ++ [o]) d lg).
Proof. done. Qed.

(** Locals sit right after the heap [h] the call was given. *)
Lemma lookup_old {A} (h t : list A) l o :
  h !! l = Some o → (h ++ t) !! l = Some o.
Proof. apply lookup_app_l_Some. Qed.

Lemma lookup_local0 {A} (h t : list A) a : (h ++ a :: t) !! length h = Some a.
Proof. apply list_lookup_middle. done. Qed.

Lemma lookup_local1 {A} (h t : list A) a b :
  (h ++ a :: b :: t) !! S (length h) = Some b.
Proof.
  rewrite (cons_middle a h), app_assoc.
  apply list_lookup_middle. rewrite length_app. simpl. lia.
Qed.

Lemma insert_local0 {A} (h t : list A) a x :
  <[length h := x]> (h ++ a :: t) = h ++ x :: t.
Proof.
  rewrite insert_app_r_alt by lia. by rewrite Nat.sub_diag.
Qed.

Lemma insert_local1 {A} (h t : list A) a b x :
  <[S (length h) := x]> (h ++ a :: b :: t) = h ++ a :: x :: t.
Proof.
  rewrite insert_app_r_alt by lia.
  by replace (S (length h) - length h) with 1 by lia.
Qed.

Lemma run_append_floats h t d lg acc x :
  append_floats (length h) x (World (h ++ OFloatss acc :: t) d lg)
  = (inr tt, World (h ++ OFloatss (acc ++ [x]) :: t) d lg).
Proof.
  unfold append_floats. rewrite run_bind.
  rewrite (run_read_floatss _ _ _ _ acc) by apply lookup_local0.
  rewrite (run_write _ _ _ _ (OFloatss acc)) by apply lookup_local0.
  by rewrite insert_local0.
Qed.

Lemma run_append_codes1 h t d lg a acc x :
  append_codes (S (length h)) x (World (h ++ a :: OCodess acc :: t) d lg)
  = (inr tt, World (h ++ a :: OCodess (acc ++ [x]) :: t) d lg).
Proof.
  unfold append_codes. rewrite run_bind.
  rewrite (run_read_codess _ _ _ _ acc) by apply lookup_local1.
  rewrite (run_write _ _ _ _ (OCodess acc)) by apply lookup_local1.
  by rewrite insert_local1.
Qed.

Lemma run_append_dict h t d lg acc x :
  append_dict (length h) x (World (h ++ ODicts acc :: t) d lg)
  = (inr tt, World (h ++ ODicts (acc ++ [x]) :: t) d lg).
Proof.
  unfold append_dict. rewrite run_bind.
  rewrite (run_read_dicts _ _ _ _ acc) by apply lookup_local0.
  rewrite (run_write _ _ _ _ (ODicts acc)) by apply lookup_local0.
  by rewrite insert_local0.
Qed.

(** ** [predict_nn], step by step *)

Section nn_run.
Context `{Libs}.

Lemma rescale_nonempty (mjds : list Q) :
  0 < length mjds →
  Cats.rescale mjds = inr ((λ t, t - hd 0 mjds)%Q <$> mjds).
Proof. destruct mjds as [|t0 ts]; simpl; [lia | done]. Qed.

Lemma collect_run h d lg names_col filterName accm accf it :
  h !! filterName = Some (ONamess names_col) →
  Cats.collect filterName (length h) (S (length h)) it
    (World (h ++ [OFloatss accm; OCodess accf]) d lg)
  = match collect_item names_col it with
    | inl e => (inl e, World (h ++ [OFloatss accm; OCodess accf]) d lg)
    | inr None => (inr tt, World (h ++ [OFloatss accm; OCodess accf]) d lg)
    | inr (Some (codes, shifted)) =>
        (inr tt, World (h ++ [OFloatss (accm ++ [shifted]);
                              OCodess (accf ++ [codes])]) d lg)
    end.
Proof.
  intros Hf. unfold Cats.collect, collect_item. destruct it as [i mjds]. simpl.
  case_decide as Hlen; [|done].
  rewrite run_bind, (run_read_namess _ _ _ _ names_col) by by apply lookup_old.
  rewrite run_lift. destruct (index names_col i) as [e|names]; [done|]. simpl.
  rewrite run_lift.
  destruct (mapM (getitem Cats.filter_dict) names) as [e|codes]; [done|]. simpl.
  rewrite run_bind, run_append_codes1, run_lift.
  rewrite rescale_nonempty by done. simpl.
  by rewrite run_append_floats.
Qed.

Lemma collect_loop_run h d lg names_col filterName items accm accf :
  h !! filterName = Some (ONamess names_col) →
  ∃ accm' accf',
    (for_ items (Cats.collect filterName (length h) (S (length h)))
       (World (h ++ [OFloatss accm; OCodess accf]) d lg)).2
    = World (h ++ [OFloatss accm'; OCodess accf']) d lg ∧
    match mapM (collect_item names_col) items with
    | inl e =>
        (for_ items (Cats.collect filterName (length h) (S (length h)))
           (World (h ++ [OFloatss accm; OCodess accf]) d lg)).1 = inl e
    | inr rs =>
        (for_ items (Cats.collect filterName (length h) (S (length h)))
           (World (h ++ [OFloatss accm; OCodess accf]) d lg)).1 = inr tt ∧
        accm' = accm ++ (omap id rs).*2 ∧ accf' = accf ++ (omap id rs).*1
    end.
Proof.
  intros Hf. revert accm accf.
  induction items as [|it items IH]; intros accm accf; simpl.
  - exists accm, accf. by rewrite !app_nil_r.
  - rewrite run_bind, (collect_run _ _ _ names_col) by done.
    destruct (collect_item names_col it) as [e|[[codes shifted]|]]; simpl.
    + by exists accm, accf.
    + destruct (IH (accm ++ [shifted]) (accf ++ [codes]))
        as (accm' & accf' & Hw & Hr).
      exists accm', accf'. split; [done|].
      destruct (mapM (collect_item names_col) items) as [e|rs]; simpl; [done|].
      destruct Hr as (? & -> & ->). by rewrite <- !app_assoc.
    + destruct (IH accm accf) as (accm' & accf' & Hw & Hr).
      exists accm', accf'. split; [done|].
      by destruct (mapM (collect_item names_col) items) as [e|rs].
Qed.

#[local] Arguments Cats.concatenate : simpl never.

Lemma predict_nn_run h d lg midpointTai psFlux psFluxErr filterName model b :
  nn_holds (World h d lg) midpointTai psFlux psFluxErr filterName model b →
  (Cats.predict_nn midpointTai psFlux psFluxErr filterName model
     (World h d lg)).1 = nn_outcome b d ∧
  log (Cats.predict_nn midpointTai psFlux psFluxErr filterName model
         (World h d lg)).2 = lg ++ nn_trace b d.
Proof.
  intros (Ht & Hfl & Her & Hfn & Hm). simpl in *.
  unfold Cats.predict_nn, nn_outcome, nn_trace, nn_tensor.
  rewrite run_bind, run_alloc. rewrite run_bind, run_alloc.
  replace (length (h ++ [OFloatss []])) with (S (length h))
    by (rewrite length_app; simpl; lia).
  rewrite <- app_assoc. simpl app.
  rewrite run_bind, (run_read_floatss _ _ _ _ (nn_midpointTai b))
    by by apply lookup_old.
  rewrite run_bind.
  destruct (collect_loop_run h d lg (nn_filterName b) filterName
              (enumerate (nn_midpointTai b)) [] [] Hfn)
    as (accm & accf & Hw & Hr).
  destruct (for_ _ _ _) as [r w']. simpl in Hw, Hr. subst w'.
  destruct (mapM (collect_item _) _) as [e|items]; simpl in Hr |- *;
    [by rewrite Hr, app_nil_r|].
  destruct Hr as (-> & -> & ->).
  rewrite run_bind, (run_read_floatss _ _ _ _ (nn_psFlux b))
    by by apply lookup_old.
  rewrite run_lift.
  destruct (mapM norm_column (nn_psFlux b)) as [e|flux]; simpl;
    [by rewrite app_nil_r|].
  rewrite run_bind, (run_read_floatss _ _ _ _ (nn_psFluxErr b))
    by by apply lookup_old.
  rewrite run_lift.
  destruct (mapM norm_column (nn_psFluxErr b)) as [e|error]; simpl;
    [by rewrite app_nil_r|].
  rewrite run_bind, (run_read_floatss _ _ _ _ ((omap id items).*2))
    by apply lookup_local0.
  rewrite run_bind, (run_read_codess _ _ _ _ ((omap id items).*1))
    by apply lookup_local1.
  rewrite run_lift. fold (stacked (omap id items).*2 flux error (omap id items).*1).
  destruct (stacked _ _ _ _) as [e|lc]; simpl; [by rewrite app_nil_r|].
  rewrite run_bind. unfold nn_model_path.
  destruct model as [m|], (nn_model b) as [paths|]; simpl in Hm; try done.
  - rewrite run_bind, (run_read_strs _ _ _ _ paths) by by apply lookup_old.
    unfold lift. destruct (index paths 0) as [e|path]; simpl;
      [by rewrite app_nil_r|].
    rewrite run_bind. unfold load, open_model, predict. simpl.
    destruct (d path) as [NN|]; simpl; [|done].
    rewrite run_bind. simpl.
    destruct (NN lc); simpl; by rewrite <- app_assoc.
  - simpl. rewrite run_bind. unfold load, open_model, predict. simpl.
    destruct (d Cats.default_model) as [NN|]; simpl; [|done].
    rewrite run_bind. simpl.
    destruct (NN lc); simpl; by rewrite <- app_assoc.
Qed.

End nn_run.

(** ** [t2], step by step *)

Section t2_run.
Context `{Libs}.

Lemma run_write_last h d lg o o' :
  write (length h) o' (World (h ++ [o]) d lg) = (inr tt, World (h ++ [o']) d lg).
Proof.
  rewrite (run_write _ _ _ _ o) by apply lookup_local0.
  by rewrite insert_local0.
Qed.

Lemma classify_run h extra d lg acc pdf model candid_ :
  ∃ extra' pevs,
    T2.classify pdf model (length h) candid_
      (World (h ++ ODicts acc :: extra) d lg)
    = (match object_probs pdf model candid_ with
       | inl e => inl e
       | inr _ => inr tt
       end,
       World (h ++ ODicts (match object_probs pdf model candid_ with
                           | inl _ => acc
                           | inr p => acc ++ [p]
                           end) :: extra') d (lg ++ pevs))
    ∧ loads pevs = [].
Proof.
  unfold T2.classify, object_probs, features, object_rows, n_filters.
  case_decide as Hn.
  { exists extra, []. by rewrite run_append_dict, app_nil_r. }
  rewrite run_lift.
  destruct (generate_gp_all_objects _ _ _) as [e|gp]; simpl.
  { exists extra, []. by rewrite app_nil_r. }
  rewrite run_bind, run_alloc, run_lift.
  destruct (robust_scale _ _) as [e|scaled]; simpl.
  { exists (extra ++ [OFrame gp]), [].
    by rewrite <- app_assoc, app_nil_r. }
  rewrite run_bind, run_write_last.
  rewrite run_bind, (run_read_frame _ _ _ _ scaled) by apply lookup_local0.
  rewrite run_lift.
  destruct (frame_values _ _) as [e|X]; simpl.
  { exists (extra ++ [OFrame scaled]), [].
    by rewrite <- app_assoc, app_nil_r. }
  rewrite run_bind. unfold predict at 1. simpl.
  exists (extra ++ [OFrame scaled]), [EvPredict [X]]. split; [|done].
  destruct (model [X]) as [e|values]; simpl.
  { by rewrite <- app_assoc. }
  rewrite run_lift.
  destruct (index values 0) as [e|row]; simpl.
  { by rewrite <- app_assoc. }
  rewrite <- app_assoc. simpl.
  unfold emit. simpl. by rewrite run_append_dict.
Qed.

Lemma classify_loop_run h extra d lg acc pdf model objects :
  ∃ extra' pevs acc',
    (for_ objects (T2.classify pdf model (length h))
       (World (h ++ ODicts acc :: extra) d lg)).2
    = World (h ++ ODicts acc' :: extra') d (lg ++ pevs) ∧
    loads pevs = [] ∧
    match mapM (object_probs pdf model) objects with
    | inl e =>
        (for_ objects (T2.classify pdf model (length h))
           (World (h ++ ODicts acc :: extra) d lg)).1 = inl e
    | inr ps =>
        (for_ objects (T2.classify pdf model (length h))
           (World (h ++ ODicts acc :: extra) d lg)).1 = inr tt ∧
        acc' = acc ++ ps
    end.
Proof.
  revert extra lg acc.
  induction objects as [|c objects IH]; intros extra lg acc; simpl.
  - exists extra, [], acc. by rewrite !app_nil_r.
  - destruct (classify_run h extra d lg acc pdf model c)
      as (extra1 & pevs1 & Hc & Hl1).
    rewrite run_bind, Hc.
    destruct (object_probs pdf model c) as [e|p]; simpl.
    + by exists extra1, pevs1, acc.
    + destruct (IH extra1 (lg ++ pevs1) (acc ++ [p]))
        as (extra2 & pevs2 & acc2 & Hw & Hl2 & Hr).
      exists extra2, (pevs1 ++ pevs2), acc2.
      rewrite Hw, app_assoc. split; [done|].
      split; [unfold loads in *; by rewrite omap_app, Hl1, Hl2|].
      destruct (mapM (object_probs pdf model) objects) as [e|ps]; simpl;
        [done|].
      destruct Hr as [? ->]. by rewrite <- app_assoc.
Qed.

Lemma fmap_const_seq {A} (x : A) start n :
  (λ _, x) <$> seq start n = replicate n x.
Proof.
  revert start. induction n as [|n IH]; intros start; simpl; [done|].
  by rewrite IH.
Qed.

Lemma t2_run h d lg candid jd fid magpsf sigmapsf roid cdsxmatch jdstarthist
    model_name b :
  t2_holds (World h d lg) candid jd fid magpsf sigmapsf roid cdsxmatch
    jdstarthist model_name b →
  (T2.t2 candid jd fid magpsf sigmapsf roid cdsxmatch jdstarthist model_name
     (World h d lg)).1 = t2_outcome b d ∧
  ∃ evs,
    log (T2.t2 candid jd fid magpsf sigmapsf roid cdsxmatch jdstarthist
           model_name (World h d lg)).2 = lg ++ evs ∧
    loads evs = option_list (t2_load_path b) ∧
    (t2_load_path b = None → evs = []).
Proof.
  intros (Hc & Hjd & Hfid & Hmag & Hsig & Hroid & Hcds & Hjds & Hm).
  simpl in *.
  unfold T2.t2, t2_outcome, t2_load_path, t2_classified, t2_mask, t2_pdf,
    t2_model_path.
  rewrite run_bind, (run_read_floatss _ _ _ _ (t2_jd b)) by done.
  rewrite run_bind, run_alloc, fmap_const_seq.
  rewrite run_bind, (run_read_floatss _ _ _ _ (t2_magpsf b))
    by by apply lookup_old.
  rewrite run_bind, (run_read_strs _ _ _ _ (t2_cdsxmatch b))
    by by apply lookup_old.
  rewrite run_bind, (run_read_floatss _ _ _ _ (t2_jd b))
    by by apply lookup_old.
  rewrite run_bind, (run_read_floats _ _ _ _ (t2_jdstarthist b))
    by by apply lookup_old.
  rewrite run_bind, (run_read_ints _ _ _ _ (t2_roid b))
    by by apply lookup_old.
  rewrite run_lift.
  destruct (apply_selection_cuts_ztf _ _ _ _ _) as [e|mask]; simpl.
  { split; [done|]. exists []. by rewrite app_nil_r. }
  rewrite run_bind, (run_read_floatss _ _ _ _ (t2_jd b))
    by by apply lookup_old.
  rewrite run_lift.
  destruct (T2.getitem_mask (t2_jd b) mask) as [e|selected]; simpl.
  { split; [done|]. exists []. by rewrite app_nil_r. }
  case_decide as Hsel.
  { rewrite (run_read_dicts _ _ _ _ (replicate (length (t2_jd b)) T2.default))
      by apply lookup_local0.
    split; [done|]. exists []. by rewrite app_nil_r. }
  rewrite run_bind, (run_read_floatss _ _ _ _ (t2_jd b))
    by by apply lookup_old.
  rewrite run_bind, (run_read_floatss _ _ _ _ (t2_magpsf b))
    by by apply lookup_old.
  rewrite run_bind, (run_read_floatss _ _ _ _ (t2_sigmapsf b))
    by by apply lookup_old.
  rewrite run_bind, (run_read_codess _ _ _ _ (t2_fid b))
    by by apply lookup_old.
  rewrite run_bind, (run_read_ints _ _ _ _ (t2_candid b))
    by by apply lookup_old.
  rewrite run_lift.
  destruct (format_data_as_snana _ _ _ _ _ _ _) as [e|raw]; simpl.
  { split; [done|]. exists []. by rewrite app_nil_r. }
  set (pdf := T2.reset_index (T2.dropna (T2.rename raw))).
  rewrite run_bind.
  assert (∃ w1,
    (match model_name with
     | Some model_name0 =>
         names ← read_strs model_name0;
         name ← lift (index names 0);
         T2.get_lite_model (Some name)
     | None => T2.get_lite_model None
     end (World (h ++ [ODicts (replicate (length (t2_jd b)) T2.default)]) d lg))
    = (match (match t2_model_name b with
              | Some names => index names 0
              | None => inr t2_default_model
              end) with
       | inl e => inl e
       | inr path => open_model d path
       end, w1) ∧
    w1 = World (h ++ [ODicts (replicate (length (t2_jd b)) T2.default)]) d
           (lg ++ match (match t2_model_name b with
                         | Some names => index names 0
                         | None => inr t2_default_model
                         end) with
                  | inl _ => []
                  | inr path => [EvLoad path]
                  end)) as (w1 & -> & ->).
  { eexists. split; [|reflexivity].
    destruct model_name as [m|], (t2_model_name b) as [names|];
      simpl in Hm; try done.
    rewrite run_bind, (run_read_strs _ _ _ _ names) by by apply lookup_old.
    rewrite run_lift.
    destruct (index names 0) as [e|name]; simpl; [by rewrite app_nil_r|].
    done. }
  destruct (match t2_model_name b with
            | Some names => index names 0
            | None => inr t2_default_model
            end) as [e|path]; simpl.
  { split; [done|]. exists []. by rewrite !app_nil_r. }
  destruct (open_model d path) as [e|model]; simpl.
  { split; [done|]. by exists [EvLoad path]. }
  rewrite run_bind, run_alloc.
  rewrite run_bind, (run_read_ints _ _ _ _ (t2_candid b))
    by by do 2 apply lookup_old.
  rewrite run_lift.
  destruct (T2.getitem_mask (t2_candid b) mask) as [e|objects]; simpl.
  { split; [done|]. by exists [EvLoad path]. }
  rewrite run_bind.
  destruct (classify_loop_run
              (h ++ [ODicts (replicate (length (t2_jd b)) T2.default)])
              [] d (lg ++ [EvLoad path]) [] pdf model objects)
    as (extra & pevs & acc & Hw & Hl & Hr).
  replace (length (h ++ [ODicts (replicate (length (t2_jd b)) T2.default)]))
    with (S (length h)) in * by (rewrite length_app; simpl; lia).
  destruct (for_ _ _ _) as [r w']. simpl in Hw, Hr. subst w'.
  assert (Hevs : loads ([EvLoad path] ++ pevs) = [path])
    by (unfold loads in *; by rewrite omap_app, Hl).
  rewrite <- (app_assoc lg).
  destruct (mapM (object_probs pdf model) objects) as [e|ps]; simpl in Hr |- *.
  { rewrite Hr. simpl. split; [done|]. by exists ([EvLoad path] ++ pevs). }
  destruct Hr as [-> ->]. simpl.
  rewrite <- app_assoc. simpl app.
  rewrite run_bind, (run_read_dicts _ _ _ _ ps) by apply lookup_local1.
  rewrite run_bind,
    (run_read_dicts _ _ _ _ (replicate (length (t2_jd b)) T2.default))
    by apply lookup_local0.
  rewrite run_lift.
  destruct (T2.setitem_mask _ mask ps) as [e|arr]; simpl.
  { split; [done|]. by exists ([EvLoad path] ++ pevs). }
  rewrite run_bind,
    (run_write _ _ _ _ (ODicts (replicate (length (t2_jd b)) T2.default)))
    by apply lookup_local0.
  rewrite insert_local0.
  rewrite (run_read_dicts _ _ _ _ arr) by apply lookup_local0.
  split; [done|]. by exists ([EvLoad path] ++ pevs).
Qed.

End t2_run.

(** ** Lists, masks and dicts *)

Section mapM_result.
Context {A B : Type} (f : A → result B).

Lemma mapM_cons x l :
  mapM f (x :: l) = y ← f x; k ← mapM f l; mret (y :: k).
Proof. done. Qed.

Lemma mapM_inr l k :
  mapM f l = inr k ↔ Forall2 (λ x y, f x = inr y) l k.
Proof.
  split.
  - revert k. induction l as [|x l IH]; intros k Hk.
    + injection Hk as <-. constructor.
    + rewrite mapM_cons in Hk. destruct (f x) as [e|y] eqn:Hx; [done|].
      simpl in Hk. destruct (mapM f l) as [e|k'] eqn:Hl; [done|].
      injection Hk as <-. constructor; auto.
  - induction 1 as [|x y l k Hx _ IH]; [done|].
    rewrite mapM_cons, Hx. simpl. by rewrite IH.
Qed.

Lemma mapM_inr_length l k : mapM f l = inr k → length k = length l.
Proof. intros Hk%mapM_inr. symmetry. by eapply Forall2_length. Qed.

(** The first element to raise decides the exception. *)
Lemma mapM_raises l i x e :
  l !! i = Some x → f x = inl e →
  (∀ j y e', j < i → l !! j = Some y → f y = inl e' → e' = e) →
  mapM f l = inl e.
Proof.
  revert i. induction l as [|z l IH]; intros i Hi Hx Hbefore; [done|].
  rewrite mapM_cons. destruct i as [|i]; simpl in Hi.
  - injection Hi as ->. by rewrite Hx.
  - destruct (f z) as [e'|y] eqn:Hz; simpl.
    + f_equal. apply (Hbefore 0 z); [lia|done..].
    + rewrite (IH i); [done..|].
      intros j y' e' Hj Hy. apply (Hbefore (S j)); [lia|done].
Qed.

End mapM_result.

Lemma lookup_enumerate {A} (xs : list A) i x :
  enumerate xs !! i = Some (i, x) ↔ xs !! i = Some x.
Proof.
  unfold enumerate. rewrite lookup_zip_with_Some. split.
  - intros (a & b & [= -> ->] & _ & Hb). done.
  - intros Hx. exists i, x. split_and!; [done| |done].
    apply lookup_seq. split; [done|]. by apply lookup_lt_Some in Hx.
Qed.

Lemma lookup_enumerate_fst {A} (xs : list A) i it :
  enumerate xs !! i = Some it → it.1 = i ∧ xs !! i = Some it.2.
Proof.
  unfold enumerate. rewrite lookup_zip_with_Some.
  intros (a & b & -> & Ha & Hb). apply lookup_seq in Ha as [-> _]. done.
Qed.

Lemma length_enumerate {A} (xs : list A) : length (enumerate xs) = length xs.
Proof. unfold enumerate. rewrite length_zip_with, length_seq. lia. Qed.

Lemma omap_length_le {A B} (f : A → option B) l :
  length (omap f l) ≤ length l.
Proof.
  induction l as [|x l IH]; cbn; [done|]. destruct (f x); simpl; lia.
Qed.

(** A list of options with as many present entries as entries has them all. *)
Lemma omap_id_full {A} (os : list (option A)) :
  length (omap id os) = length os → os = Some <$> omap id os.
Proof.
  induction os as [|[x|] os IH]; cbn; intros Hlen; [done| |].
  - f_equal. apply IH. cbn in Hlen. lia.
  - pose proof (omap_length_le id os) as Hle. cbn in Hle, Hlen. lia.
Qed.

Section masks.
Context {A : Type}.

Lemma getitem_mask_length (xs : list A) mask ys :
  T2.getitem_mask xs mask = inr ys → length mask = length xs.
Proof.
  revert mask ys. induction xs as [|x xs IH]; intros [|b mask] ys; simpl;
    try done.
  destruct (T2.getitem_mask xs mask) as [e|rest] eqn:Hr; [done|].
  intros _. f_equal. by eapply IH.
Qed.

Lemma getitem_mask_all_false (xs : list A) mask :
  length mask = length xs → Forall (λ b, b = false) mask →
  T2.getitem_mask xs mask = inr [].
Proof.
  revert mask. induction xs as [|x xs IH]; intros [|b mask]; simpl; try done.
  intros [= Hlen] [-> Hall]%Forall_cons. by rewrite IH.
Qed.

Lemma getitem_mask_nil (xs : list A) mask :
  T2.getitem_mask xs mask = inr [] → Forall (λ b, b = false) mask.
Proof.
  revert mask. induction xs as [|x xs IH]; intros [|b mask]; simpl; try done.
  destruct (T2.getitem_mask xs mask) as [e|rest] eqn:Hr; [done|].
  destruct b; simpl; [done|]. intros [= ->]. constructor; [done|]. by apply IH.
Qed.

Lemma setitem_mask_length (arr : list A) mask vals out :
  T2.setitem_mask arr mask vals = inr out → length out = length arr.
Proof.
  revert mask vals out.
  induction arr as [|x arr IH]; intros [|[] mask] vals out; simpl; try done.
  - destruct vals; [|done]. by intros [= <-].
  - destruct vals as [|v vals]; [done|].
    destruct (T2.setitem_mask arr mask vals) as [e|rest] eqn:Hr; [done|].
    intros [= <-]. simpl. f_equal. by eapply IH.
  - destruct (T2.setitem_mask arr mask vals) as [e|rest] eqn:Hr; [done|].
    intros [= <-]. simpl. f_equal. by eapply IH.
Qed.

(** Where the mask does not hold the array keeps its entry; where it
    holds, the entry is the value computed for the object at that very
    position. *)
Lemma setitem_getitem_mask {X} (R : X → A → Prop) (xs : list X) arr mask
    objects vals out :
  T2.getitem_mask xs mask = inr objects →
  Forall2 R objects vals →
  T2.setitem_mask arr mask vals = inr out →
  ∀ i,
    (mask !! i = Some false → out !! i = arr !! i) ∧
    (mask !! i = Some true →
       ∃ x v, xs !! i = Some x ∧ out !! i = Some v ∧ R x v).
Proof.
  revert arr mask objects vals out.
  induction xs as [|x xs IH]; intros arr [|b mask] objects vals out; simpl;
    try done.
  destruct (T2.getitem_mask xs mask) as [e|rest] eqn:Hg; [done|]. simpl.
  intros [= <-] HR Hs. destruct arr as [|a arr]; [done|].
  destruct b; simpl in Hs.
  - inversion HR as [|x' v rest' vals' Hxv HR']; subst.
    destruct (T2.setitem_mask arr mask vals') as [e|out'] eqn:Hs'; [done|].
    injection Hs as <-. intros [|i]; simpl.
    + split; [done|]. intros _. by exists x, v.
    + by eapply IH.
  - destruct (T2.setitem_mask arr mask vals) as [e|out'] eqn:Hs'; [done|].
    injection Hs as <-. intros [|i]; simpl.
    + split; [done|]. done.
    + by eapply IH.
Qed.

(** The assignment succeeds when there is one value per selected entry. *)
Lemma setitem_mask_total {X} (xs : list X) (arr : list A) mask objects vals :
  T2.getitem_mask xs mask = inr objects →
  length vals = length objects → length arr = length xs →
  ∃ out, T2.setitem_mask arr mask vals = inr out.
Proof.
  revert arr mask objects vals.
  induction xs as [|x xs IH]; intros [|a arr] [|b mask] objects vals; simpl;
    try done.
  { intros [= <-]. destruct vals; [by eexists|done]. }
  destruct (T2.getitem_mask xs mask) as [e|rest] eqn:Hg; [done|]. simpl.
  intros [= <-] Hlen [= Harr]. destruct b.
  - destruct vals as [|v vals]; [done|]. injection Hlen as Hlen.
    destruct (IH arr mask rest vals) as [out ->]; [done..|]. by eexists.
  - destruct (IH arr mask rest vals) as [out ->]; [done..|]. by eexists.
Qed.

End masks.

(** Dicts built from pairs. *)
Lemma dict_const_lookup `{Countable K} {V} (ks : list K) (v : V) k :
  dict ((λ k, (k, v)) <$> ks) !! k = if decide (k ∈ ks) then Some v else None.
Proof.
  unfold dict.
  assert (∀ m : gmap K V,
    foldl (λ d kv, <[kv.1:=kv.2]> d) m ((λ k, (k, v)) <$> ks) !! k
    = if decide (k ∈ ks) then Some v else m !! k) as Hgen.
  { induction ks as [|k' ks IH]; intros m.
    - destruct (decide (k ∈ [])) as [Hin|_]; [by inversion Hin | done].
    - rewrite fmap_cons. cbn [foldl]. rewrite IH. cbn [fst snd].
      destruct (decide (k ∈ ks)) as [Hin|Hnin],
        (decide (k ∈ k' :: ks)) as [Hin'|Hnin']; try done.
      + exfalso. apply Hnin'. by right.
      + apply elem_of_cons in Hin' as [->|?]; [|done].
        apply lookup_insert_eq.
      + apply lookup_insert_ne. intros ->. apply Hnin'. by left. }
  rewrite Hgen. by rewrite lookup_empty.
Qed.

(** ** Padding and stacking *)

Lemma pad_sequence_length {A B} (cast : A → B) maxlen value s :
  length (Cats.pad_sequence cast maxlen value s) = maxlen.
Proof.
  unfold Cats.pad_sequence. cbv zeta.
  rewrite length_app, length_replicate, !length_fmap, !length_drop. lia.
Qed.

Lemma pad_sequence_post_padded {A B} (cast : A → B) maxlen value s :
  post_padded maxlen value (cast <$> s) (Cats.pad_sequence cast maxlen value s).
Proof.
  split; [apply pad_sequence_length|].
  unfold Cats.pad_sequence. cbv zeta.
  rewrite fmap_drop, !length_drop, !length_fmap. do 2 f_equal. lia.
Qed.

Lemma filter_dict_codes f c :
  Cats.filter_dict !! f = Some c → (1 ≤ c ≤ 6)%Z.
Proof.
  unfold Cats.filter_dict, dict. simpl.
  repeat (rewrite lookup_insert; case_decide; [intros [= <-]; lia|]).
  by rewrite lookup_empty.
Qed.

Lemma astype_code c :
  (1 ≤ c ≤ 6)%Z → Cats.astype_uint8 (Cats.astype_int16 c) = c.
Proof.
  intros Hc. unfold Cats.astype_uint8, Cats.astype_int16.
  rewrite (Z.mod_small (c + 32768)) by lia.
  rewrite Z.mod_small by lia. lia.
Qed.

Lemma getitem_mapM_codes names codes :
  mapM (getitem Cats.filter_dict) names = inr codes →
  length codes = length names ∧
  Forall (λ c, (1 ≤ c ≤ 6)%Z) codes ∧
  Cats.astype_uint8 <$> (Cats.astype_int16 <$> codes) = codes.
Proof.
  intros Hm. split; [by eapply mapM_inr_length|].
  apply mapM_inr in Hm.
  assert (Forall (λ c, (1 ≤ c ≤ 6)%Z) codes) as Hc.
  { induction Hm as [|f c names codes Hf _ IH]; constructor; [|done].
    unfold getitem in Hf.
    destruct (Cats.filter_dict !! f) eqn:Hl; [|done].
    injection Hf as ->. by eapply filter_dict_codes. }
  split; [done|].
  clear Hm. induction Hc as [|c codes Hc _ IH]; [done|].
  rewrite !fmap_cons, astype_code by done. by f_equal.
Qed.

Lemma getitem_mapM_error `{Countable K} {V} (d : gmap K V) ks e :
  mapM (getitem d) ks = inl e → e = KeyError.
Proof.
  induction ks as [|k ks IH]; [done|]. rewrite mapM_cons.
  destruct (getitem d k) as [e'|v] eqn:Hk; simpl.
  - intros [= <-]. unfold getitem in Hk. destruct (d !! k); congruence.
  - destruct (mapM (getitem d) ks) as [e'|]; simpl; [|done].
    intros [= ->]. by apply IH.
Qed.

Lemma concat_steps_inr r s t :
  Cats.concat_steps r s = inr t → length r = length s ∧ t = zip_with app r s.
Proof.
  revert s t. induction r as [|x r IH]; intros [|y s] t; simpl; try done.
  - by intros [= <-].
  - destruct (Cats.concat_steps r s) as [e|t'] eqn:Ht; simpl; [done|].
    intros [= <-]. destruct (IH _ _ Ht) as [-> ->]. done.
Qed.

Lemma concat_rows_inr a b t :
  Cats.concat_rows a b = inr t →
  length a = length b ∧ length t = length a ∧
  ∀ r x y, a !! r = Some x → b !! r = Some y →
    length x = length y ∧ t !! r = Some (zip_with app x y).
Proof.
  revert b t. induction a as [|x a IH]; intros [|y b] t; simpl; try done.
  - intros [= <-]. by split_and!.
  - destruct (Cats.concat_steps x y) as [e|u] eqn:Hu; simpl; [done|].
    destruct (Cats.concat_rows a b) as [e|t'] eqn:Ht; simpl; [done|].
    intros [= <-]. destruct (IH _ _ Ht) as (Hab & Hta & Hrows).
    apply concat_steps_inr in Hu as [Hxy ->].
    split_and!; simpl; [congruence..|].
    intros [|r] x' y'; simpl.
    + by intros [= <-] [= <-].
    + apply Hrows.
Qed.

Lemma steps4_channels ra rb rc rd :
  length rb = length ra → length rc = length ra → length rd = length ra →
  length (steps4 ra rb rc rd) = length ra ∧
  Forall (λ st : list Q, length st = 4) (steps4 ra rb rc rd) ∧
  row_channel 0 (steps4 ra rb rc rd) = ra ∧
  row_channel 1 (steps4 ra rb rc rd) = rb ∧
  row_channel 2 (steps4 ra rb rc rd) = rc ∧
  row_channel 3 (steps4 ra rb rc rd) = rd.
Proof.
  revert rb rc rd.
  induction ra as [|a ra IH]; intros [|b rb] [|c rc] [|d rd]; try done.
  intros [= Hb] [= Hc] [= Hd].
  destruct (IH rb rc rd Hb Hc Hd) as (Hl & Hf & H0 & H1 & H2 & H3).
  unfold steps4, row_channel in *. simpl.
  split_and!; [by f_equal | by constructor | by f_equal..].
Qed.

Section stacked.
Context `{Libs}.

Lemma stacked_rows mjd flux error filters lc :
  stacked mjd flux error filters = inr lc →
  length flux = length mjd ∧ length error = length mjd ∧
  length filters = length mjd ∧ length lc = length mjd ∧
  ∀ r ra rb rc rd,
    mjd !! r = Some ra → flux !! r = Some rb → error !! r = Some rc →
    filters !! r = Some rd →
    lc !! r = Some
      (steps4 (Cats.pad_sequence id 395 (-999)%Q ra)
              (Cats.pad_sequence id 395 (-999)%Q rb)
              (Cats.pad_sequence id 395 (-999)%Q rc)
              (inject_Z <$> Cats.pad_sequence Cats.astype_uint8 395 0%Z rd)).
Proof.
  unfold stacked. simpl.
  destruct (Cats.concat_rows (Cats.expand_last _) (Cats.expand_last _))
    as [e|cd] eqn:Hcd; simpl; [done|].
  destruct (Cats.concat_rows _ cd) as [e|bcd] eqn:Hbcd; simpl; [done|].
  intros Hlc.
  apply concat_rows_inr in Hcd as (Hl1 & Hl1' & Hr1).
  apply concat_rows_inr in Hbcd as (Hl2 & Hl2' & Hr2).
  apply concat_rows_inr in Hlc as (Hl3 & Hl3' & Hr3).
  unfold Cats.expand_last, Cats.pad_sequences in *.
  rewrite !length_fmap in *.
  split_and!; [lia..|].
  intros r ra rb rc rd Ha Hb Hc Hd.
  edestruct Hr1 as [_ H1].
  { by rewrite !list_lookup_fmap, Hc. }
  { by rewrite !list_lookup_fmap, Hd. }
  edestruct Hr2 as [_ H2]; [by rewrite !list_lookup_fmap, Hb | exact H1 |].
  edestruct Hr3 as [_ H3]; [by rewrite !list_lookup_fmap, Ha | exact H2 |].
  rewrite H3. simpl. unfold steps4. by rewrite <- !list_fmap_compose.
Qed.

End stacked.

Section nn_rows.
Context `{Libs}.

(** What one turn of the loop appended, for a record it did not skip. *)
Lemma collect_item_some names_col i mjds codes16 shifted :
  collect_item names_col (i, mjds) = inr (Some (codes16, shifted)) →
  mjds ≠ [] ∧
  ∃ names codes,
    names_col !! i = Some names ∧
    mapM (getitem Cats.filter_dict) names = inr codes ∧
    codes16 = Cats.astype_int16 <$> codes ∧
    shifted = (λ t, t - hd 0 mjds)%Q <$> mjds.
Proof.
  unfold collect_item. simpl. case_decide as Hlen; [|done].
  unfold index. destruct (names_col !! i) as [names|]; simpl; [|done].
  destruct (mapM _ names) as [e|codes] eqn:Hc; simpl; [done|].
  rewrite rescale_nonempty by done. simpl. intros [= <- <-].
  split; [by destruct mjds; simpl in Hlen; [lia|]|].
  by exists names, codes.
Qed.

(** When the tensor gets built, no record was skipped, and row [r] of the
    tensor stacks the four padded series of record [r]. *)
Lemma nn_tensor_rows b lc :
  nn_aligned b → nn_tensor b = inr lc →
  length lc = length (nn_midpointTai b) ∧
  ∃ flux error,
    mapM norm_column (nn_psFlux b) = inr flux ∧
    mapM norm_column (nn_psFluxErr b) = inr error ∧
    ∀ r mjds, nn_midpointTai b !! r = Some mjds →
      ∃ names codes flux_r error_r,
        mjds ≠ [] ∧ nn_filterName b !! r = Some names ∧
        mapM (getitem Cats.filter_dict) names = inr codes ∧
        flux !! r = Some flux_r ∧ error !! r = Some error_r ∧
        lc !! r = Some
          (steps4
             (Cats.pad_sequence id 395 (-999)%Q
                ((λ t, t - hd 0 mjds)%Q <$> mjds))
             (Cats.pad_sequence id 395 (-999)%Q flux_r)
             (Cats.pad_sequence id 395 (-999)%Q error_r)
             (inject_Z <$> Cats.pad_sequence Cats.astype_uint8 395 0%Z
                             (Cats.astype_int16 <$> codes))).
Proof.
  intros (Hal & _ & _). unfold nn_tensor.
  destruct (mapM (collect_item _) _) as [e|items] eqn:Hi; simpl; [done|].
  destruct (mapM norm_column (nn_psFlux b)) as [e|flux] eqn:Hf; simpl; [done|].
  destruct (mapM norm_column (nn_psFluxErr b)) as [e|error] eqn:He; simpl;
    [done|].
  intros Hs. apply stacked_rows in Hs as (Hl1 & Hl2 & Hl3 & Hl4 & Hrows).
  pose proof (mapM_inr_length _ _ _ Hf) as Hlf.
  pose proof (mapM_inr_length _ _ _ Hi) as Hli.
  rewrite length_enumerate in Hli. rewrite length_fmap in Hl1, Hl2, Hl4.
  assert (items = Some <$> omap id items) as Hfull
    by (apply omap_id_full; lia).
  split; [lia|]. exists flux, error. split; [done|]. split; [done|].
  intros r mjds Hr.
  apply mapM_inr in Hi.
  destruct (Forall2_lookup_l _ _ _ r (r, mjds) Hi) as (o & Ho & Hc);
    [by apply lookup_enumerate|].
  rewrite Hfull, list_lookup_fmap in Ho.
  destruct (omap id items !! r) as [[codes16 shifted]|] eqn:Hp; [|done].
  injection Ho as <-.
  apply collect_item_some in Hc as (Hne & names & codes & Hn & Hcs & -> & ->).
  apply lookup_lt_Some in Hr as Hlt.
  destruct (lookup_lt_is_Some_2 flux r) as [flux_r Hfr]; [lia|].
  destruct (lookup_lt_is_Some_2 error r) as [error_r Her]; [lia|].
  exists names, codes, flux_r, error_r. split_and!; try done.
  apply Hrows; try done; by rewrite list_lookup_fmap, Hp.
Qed.

(** The tensor a call feeds its model is the one [nn_tensor] builds. *)
Lemma nn_trace_fed b d lc :
  lc ∈ fed (nn_trace b d) → nn_tensor b = inr lc.
Proof.
  unfold nn_trace. destruct (nn_tensor b) as [e|lc']; [by intros ?%elem_of_nil|].
  destruct (nn_model_path b) as [e|path]; [by intros ?%elem_of_nil|].
  destruct (d path); simpl; [|by intros ?%elem_of_nil].
  by intros ->%list_elem_of_singleton.
Qed.

End nn_rows.

(** * The claims *)

Section results.
Context `{Libs}.

Lemma nn_result w midpointTai psFlux psFluxErr filterName model b :
  nn_holds w midpointTai psFlux psFluxErr filterName model b →
  (Cats.predict_nn midpointTai psFlux psFluxErr filterName model w).1
  = nn_outcome b (disk w).
Proof. destruct w as [h d lg]. intros Hb. by apply predict_nn_run. Qed.

Lemma nn_events w midpointTai psFlux psFluxErr filterName model b :
  nn_holds w midpointTai psFlux psFluxErr filterName model b →
  new_events w
    (Cats.predict_nn midpointTai psFlux psFluxErr filterName model w).2
  = nn_trace b (disk w).
Proof.
  destruct w as [h d lg]. intros Hb. unfold new_events.
  destruct (predict_nn_run h d lg _ _ _ _ _ b Hb) as [_ ->]. simpl.
  by rewrite drop_app_length.
Qed.

Lemma t2_result w candid jd fid magpsf sigmapsf roid cdsxmatch jdstarthist
    model_name b :
  t2_holds w candid jd fid magpsf sigmapsf roid cdsxmatch jdstarthist
    model_name b →
  (T2.t2 candid jd fid magpsf sigmapsf roid cdsxmatch jdstarthist model_name
     w).1 = t2_outcome b (disk w).
Proof. destruct w as [h d lg]. intros Hb. by apply t2_run. Qed.

Lemma t2_events w candid jd fid magpsf sigmapsf roid cdsxmatch jdstarthist
    model_name b :
  t2_holds w candid jd fid magpsf sigmapsf roid cdsxmatch jdstarthist
    model_name b →
  loads (new_events w
           (T2.t2 candid jd fid magpsf sigmapsf roid cdsxmatch jdstarthist
              model_name w).2) = option_list (t2_load_path b) ∧
  (t2_load_path b = None →
   new_events w
     (T2.t2 candid jd fid magpsf sigmapsf roid cdsxmatch jdstarthist
        model_name w).2 = []).
Proof.
  destruct w as [h d lg]. intros Hb. unfold new_events.
  destruct (t2_run h d lg _ _ _ _ _ _ _ _ _ b Hb) as [_ (evs & -> & Hl & Hq)].
  simpl. rewrite drop_app_length. auto.
Qed.




End results.

(** C6 — Neither [predict_nn] nor [t2] mutates its input columns or any
    shared state: whatever the arguments and whether the call returns or
    raises, every object that was on the heap before the call (the input
    columns among them) is unchanged after it, and so is the disk.  All
    the call writes to are the containers it allocated itself. *)
Theorem inputs_unchanged `{Libs} (w : world)
    (midpointTai psFlux psFluxErr filterName : loc) (model : option loc)
    (candid jd fid magpsf sigmapsf roid cdsxmatch jdstarthist : loc)
    (model_name : option loc) :
  kept w (Cats.predict_nn midpointTai psFlux psFluxErr filterName model w).2 ∧
  kept w (T2.t2 candid jd fid magpsf sigmapsf roid cdsxmatch jdstarthist
            model_name w).2.
Proof.
  split.
  - apply keeps_predict_nn, kept_refl.
  - apply keeps_t2, kept_refl.
Qed.





Section t2_claims.
Context `{Libs}.

Lemma default_lookup k :
  T2.default !! k = if decide (k ∈ T2_COLS) then Some (-1)%Q else None.
Proof. apply dict_const_lookup. Qed.

Lemma default_sentinel k : k ∈ T2_COLS → T2.default !! k = Some (-1)%Q.
Proof. intros Hk. by rewrite default_lookup, decide_True. Qed.

Lemma t2_outcome_none b d mask :
  t2_mask b = inr mask → length mask = length (t2_jd b) →
  Forall (λ x, x = false) mask →
  t2_outcome b d = inr (replicate (length (t2_jd b)) T2.default) ∧
  t2_load_path b = None.
Proof.
  intros Hm Hlen Hall. unfold t2_outcome, t2_load_path. rewrite Hm. simpl.
  rewrite getitem_mask_all_false by done. done.
Qed.

End t2_claims.

(** C8 — In [t2], if no record of the batch passes the selection cuts,
    the call returns at once a series of length [len(jd)] whose every
    entry is the default mapping (each class label to -1.0), and it has
    loaded no model and run no inference. *)
Theorem t2_nothing_selected `{Libs} (w : world)
    (candid jd fid magpsf sigmapsf roid cdsxmatch jdstarthist : loc)
    (model_name : option loc) (b : t2_batch) (mask : list bool) :
  t2_holds w candid jd fid magpsf sigmapsf roid cdsxmatch jdstarthist
    model_name b →
  t2_mask b = inr mask →
  length mask = length (t2_jd b) →
  Forall (λ x, x = false) mask →
  (T2.t2 candid jd fid magpsf sigmapsf roid cdsxmatch jdstarthist model_name
     w).1 = inr (replicate (length (t2_jd b)) T2.default) ∧
  new_events w
    (T2.t2 candid jd fid magpsf sigmapsf roid cdsxmatch jdstarthist model_name
       w).2 = [] ∧
  (∀ k, k ∈ T2_COLS → T2.default !! k = Some (-1)%Q).
Proof.
  intros Hb Hm Hlen Hall.
  destruct (t2_outcome_none b (disk w) mask Hm Hlen Hall) as [Ho Hp].
  split; [by rewrite (t2_result _ _ _ _ _ _ _ _ _ _ b Hb)|].
  split; [|apply default_sentinel].
  by apply (t2_events _ _ _ _ _ _ _ _ _ _ b Hb).
Qed.

Lemma t2_nothing_selected_witness :
  (T2.t2 4 5 6 7 8 9 10 11 None Sample.with_none).1
  = inr (replicate 3 T2.default) ∧
  new_events Sample.with_none
    (T2.t2 4 5 6 7 8 9 10 11 None Sample.with_none).2 = [].
Proof.
  destruct (t2_nothing_selected Sample.with_none 4 5 6 7 8 9 10 11 None
              Sample.t2_sample_none [false; false; false])
    as (Hr & He & _).
  - repeat split.
  - reflexivity.
  - reflexivity.
  - repeat constructor.
  - split; [exact Hr | exact He].
Defined.

Section model_loading.
Context `{Libs}.

Lemma nn_trace_loads b d :
  loads (nn_trace b d) = [] ∨
  ∃ path, loads (nn_trace b d) = [path] ∧ nn_model_path b = inr path.
Proof.
  unfold nn_trace. destruct (nn_tensor b) as [e|lc]; [by left|].
  destruct (nn_model_path b) as [e|path]; [by left|].
  right. exists path. by destruct (d path).
Qed.

Lemma nn_outcome_loads b d preds :
  nn_outcome b d = inr preds →
  ∃ path, loads (nn_trace b d) = [path] ∧ nn_model_path b = inr path.
Proof.
  unfold nn_outcome, nn_trace. destruct (nn_tensor b) as [e|lc]; [done|].
  destruct (nn_model_path b) as [e|path]; [done|]. simpl.
  intros _. exists path. by destruct (d path).
Qed.

Lemma nn_model_path_source b path :
  nn_model_path b = inr path →
  model_source Cats.default_model (nn_model b) path.
Proof.
  unfold nn_model_path, model_source, index.
  destruct (nn_model b) as [paths|]; [|by intros [= ->]].
  by destruct (paths !! 0); intros [= ->].
Qed.

Lemma t2_model_path_source b path :
  t2_model_path b = inr path →
  model_source t2_default_model (t2_model_name b) path.
Proof.
  unfold t2_model_path, model_source, index.
  destruct (t2_model_name b) as [paths|]; [|by intros [= ->]].
  by destruct (paths !! 0); intros [= ->].
Qed.

Lemma t2_load_path_source b path :
  t2_load_path b = Some path →
  model_source t2_default_model (t2_model_name b) path.
Proof.
  unfold t2_load_path. intros Hp. apply t2_model_path_source.
  destruct (t2_mask b) as [e|mask]; [done|].
  destruct (T2.getitem_mask _ _) as [e|selected]; [done|].
  case_decide; [done|].
  destruct (t2_pdf b mask); [done|].
  destruct (t2_model_path b); [done|]. by injection Hp as ->.
Qed.

(** A returning call that selected some record did load its model. *)
Lemma t2_outcome_loads b d out mask :
  t2_outcome b d = inr out → t2_mask b = inr mask → true ∈ mask →
  ∃ path, t2_load_path b = Some path.
Proof.
  unfold t2_outcome, t2_load_path. intros Ho Hm Hsel.
  rewrite Hm in *. simpl in Ho.
  destruct (T2.getitem_mask (t2_jd b) mask) as [e|selected] eqn:Hg;
    simpl in Ho; [done|].
  case_decide as Hlen.
  { apply nil_length_inv in Hlen as ->. apply getitem_mask_nil in Hg.
    rewrite Forall_forall in Hg. by specialize (Hg true Hsel). }
  unfold t2_classified in Ho.
  destruct (t2_pdf b mask); simpl in Ho; [done|].
  destruct (t2_model_path b) as [e|path]; simpl in Ho; [done|]. by exists path.
Qed.

(** A returning call that selected no record loaded nothing: it left at
    the early return. *)
Lemma t2_outcome_no_load b d out mask :
  t2_outcome b d = inr out → t2_mask b = inr mask → true ∉ mask →
  t2_load_path b = None.
Proof.
  unfold t2_outcome, t2_load_path. intros Ho Hm Hsel.
  rewrite Hm in *. simpl in Ho.
  destruct (T2.getitem_mask (t2_jd b) mask) as [e|selected] eqn:Hg;
    simpl in Ho; [done|].
  assert (Forall (λ x, x = false) mask) as Hall.
  { apply Forall_forall. intros [] Hin; [by destruct Hsel|done]. }
  rewrite getitem_mask_all_false in Hg
    by (by apply getitem_mask_length in Hg). injection Hg as <-.
  by rewrite decide_True.
Qed.

End model_loading.

(** C5, as stated, fails: a [t2] call without a model column in which no
    record passes the selection cuts returns normally and has loaded no
    model, from the default path or from anywhere else. *)
Lemma t2_returns_without_model :
  (T2.t2 4 5 6 7 8 9 10 11 None Sample.with_none).1
  = inr (replicate 3 T2.default) ∧
  t2_default_model ∉
    loads (new_events Sample.with_none
             (T2.t2 4 5 6 7 8 9 10 11 None Sample.with_none).2).
Proof.
  split; [reflexivity|].
  assert (loads (new_events Sample.with_none
                   (T2.t2 4 5 6 7 8 9 10 11 None Sample.with_none).2) = [])
    as -> by reflexivity.
  apply not_elem_of_nil.
Qed.

(** C5 — A call that loads a model loads exactly one: from the fixed
    default path when the model argument is absent, from the first element
    of the model column when one is supplied.  Every [predict_nn] call that
    returns has loaded it.  A [t2] call that returns has loaded it when some
    record passed the selection cuts, and has loaded no model at all when
    none did.  The two halves are independent: each holds for every world
    that holds a batch of its own function. *)
Theorem model_loaded_from `{Libs} (w : world) (nb : nn_batch) (tb : t2_batch)
    (midpointTai psFlux psFluxErr filterName : loc) (model : option loc)
    (candid jd fid magpsf sigmapsf roid cdsxmatch jdstarthist : loc)
    (model_name : option loc) :
  (nn_holds w midpointTai psFlux psFluxErr filterName model nb →
   let nn := Cats.predict_nn midpointTai psFlux psFluxErr filterName model w in
   (∀ path, path ∈ loads (new_events w nn.2) →
      loads (new_events w nn.2) = [path] ∧
      model_source Cats.default_model (nn_model nb) path) ∧
   (∀ preds, nn.1 = inr preds →
      ∃ path, loads (new_events w nn.2) = [path] ∧
              model_source Cats.default_model (nn_model nb) path)) ∧
  (t2_holds w candid jd fid magpsf sigmapsf roid cdsxmatch jdstarthist
     model_name tb →
   let tt := T2.t2 candid jd fid magpsf sigmapsf roid cdsxmatch jdstarthist
               model_name w in
   (∀ path, path ∈ loads (new_events w tt.2) →
      loads (new_events w tt.2) = [path] ∧
      model_source t2_default_model (t2_model_name tb) path) ∧
   (∀ out mask, tt.1 = inr out → t2_mask tb = inr mask →
      (true ∈ mask →
         ∃ path, loads (new_events w tt.2) = [path] ∧
                 model_source t2_default_model (t2_model_name tb) path) ∧
      (true ∉ mask → loads (new_events w tt.2) = []))).
Proof.
  split.
  - intros Hn nn. subst nn.
    rewrite (nn_events _ _ _ _ _ _ nb Hn), (nn_result _ _ _ _ _ _ nb Hn).
    split.
    + intros path Hin.
      destruct (nn_trace_loads nb (disk w)) as [Hl|(p & Hl & Hp)];
        rewrite Hl in Hin |- *; [by apply elem_of_nil in Hin|].
      apply list_elem_of_singleton in Hin as ->.
      split; [done | by apply nn_model_path_source].
    + intros preds Hr.
      destruct (nn_outcome_loads _ _ _ Hr) as (p & Hl & Hp).
      exists p. split; [done | by apply nn_model_path_source].
  - intros Ht tt. subst tt.
    destruct (t2_events _ _ _ _ _ _ _ _ _ _ tb Ht) as [-> _].
    rewrite (t2_result _ _ _ _ _ _ _ _ _ _ tb Ht).
    split.
    + intros path Hin. destruct (t2_load_path tb) as [p|] eqn:Hp; simpl in *;
        [|by apply elem_of_nil in Hin].
      apply list_elem_of_singleton in Hin as ->.
      split; [done | by apply t2_load_path_source].
    + intros out mask Hr Hm. split; intros Hsel.
      * destruct (t2_outcome_loads _ _ _ _ Hr Hm Hsel) as (p & Hp).
        rewrite Hp. exists p. split; [done | by apply t2_load_path_source].
      * by rewrite (t2_outcome_no_load _ _ _ _ Hr Hm Hsel).
Qed.

Lemma model_loaded_from_witness :
  loads (new_events Sample.good
           (Cats.predict_nn 0 1 2 3 None Sample.good).2)
  = [Cats.default_model] ∧
  loads (new_events Sample.good
           (T2.t2 4 5 6 7 8 9 10 11 None Sample.good).2)
  = [t2_default_model] ∧
  loads (new_events Sample.with_none
           (T2.t2 4 5 6 7 8 9 10 11 None Sample.with_none).2) = [].
Proof.
  assert (nn_holds Sample.good 0 1 2 3 None Sample.nn_sample) as Hn
    by repeat split.
  assert (t2_holds Sample.good 4 5 6 7 8 9 10 11 None Sample.t2_sample) as Ht
    by repeat split.
  assert (t2_holds Sample.with_none 4 5 6 7 8 9 10 11 None
            Sample.t2_sample_none) as Ht0 by repeat split.
  eassert ((Cats.predict_nn 0 1 2 3 None Sample.good).1 = inr _) as Hrn
    by reflexivity.
  eassert ((T2.t2 4 5 6 7 8 9 10 11 None Sample.good).1 = inr _) as Hrt
    by reflexivity.
  eassert ((T2.t2 4 5 6 7 8 9 10 11 None Sample.with_none).1 = inr _) as Hr0
    by reflexivity.
  split_and!.
  - destruct (proj2 (proj1 (model_loaded_from Sample.good Sample.nn_sample
                              Sample.t2_sample 0 1 2 3 None
                              4 5 6 7 8 9 10 11 None) Hn) _ Hrn)
      as (path & Hl & Hs).
    simpl in Hs. by rewrite Hl, Hs.
  - destruct (proj1 (proj2 (proj2 (model_loaded_from Sample.good
                                     Sample.nn_sample Sample.t2_sample
                                     0 1 2 3 None 4 5 6 7 8 9 10 11 None) Ht)
                       _ [true; false; true] Hrt eq_refl)
                ltac:(by left))
      as (path & Hl & Hs).
    simpl in Hs. by rewrite Hl, Hs.
  - apply (proj2 (proj2 (proj2 (model_loaded_from Sample.with_none
                                  Sample.nn_sample Sample.t2_sample_none
                                  0 1 2 3 None 4 5 6 7 8 9 10 11 None) Ht0)
                    _ [false; false; false] Hr0 eq_refl)).
    by apply (bool_decide_unpack _).
Defined.


Section t2_positions.
Context `{Libs}.

(** What the loop appends for one object. *)
Lemma object_probs_cases pdf model candid_ v :
  object_probs pdf model candid_ = inr v →
  (n_filters (object_rows pdf candid_) ≠ 2 ∧ v = T2.default) ∨
  (n_filters (object_rows pdf candid_) = 2 ∧
   ∃ X values row,
     features candid_ (object_rows pdf candid_) = inr X ∧
     model X = inr values ∧ values !! 0 = Some row ∧
     v = dict (zip T2_COLS row)).
Proof.
  unfold object_probs. case_decide as Hn.
  - intros [= <-]. by left.
  - intros Hv. right. split; [lia|].
    destruct (features _ _) as [e|X] eqn:HX; simpl in Hv; [done|].
    destruct (model X) as [e|values] eqn:Hvals; simpl in Hv; [done|].
    unfold index in Hv.
    destruct (values !! 0) as [row|] eqn:Hrow; simpl in Hv; [|done].
    injection Hv as <-. by exists X, values, row.
Qed.

Lemma t2_outcome_positions b d out :
  t2_outcome b d = inr out →
  ∃ mask,
    t2_mask b = inr mask ∧ length mask = length (t2_jd b) ∧
    length out = length (t2_jd b) ∧
    ∀ i,
      (mask !! i = Some false → out !! i = Some T2.default) ∧
      (mask !! i = Some true →
         ∃ c pdf path model v,
           t2_candid b !! i = Some c ∧ t2_pdf b mask = inr pdf ∧
           model_source t2_default_model (t2_model_name b) path ∧
           d path = Some model ∧
           out !! i = Some v ∧ object_probs pdf model c = inr v).
Proof.
  unfold t2_outcome. intros Ho.
  destruct (t2_mask b) as [e|mask]; simpl in Ho; [done|].
  destruct (T2.getitem_mask (t2_jd b) mask) as [e|selected] eqn:Hg;
    simpl in Ho; [done|].
  pose proof (getitem_mask_length _ _ _ Hg) as Hlen.
  exists mask. split; [done|]. split; [done|].
  assert (∀ i, mask !! i = Some false →
               replicate (length (t2_jd b)) T2.default !! i
               = Some T2.default) as Hdef.
  { intros i Hi. apply lookup_replicate_2. apply lookup_lt_Some in Hi. lia. }
  case_decide as Hsel.
  - injection Ho as <-. split; [apply length_replicate|].
    intros i. split; [apply Hdef|].
    apply nil_length_inv in Hsel as ->. apply getitem_mask_nil in Hg.
    intros Hi. rewrite Forall_lookup in Hg. by specialize (Hg i true Hi).
  - unfold t2_classified in Ho.
    destruct (t2_pdf b mask) as [e|pdf]; simpl in Ho; [done|].
    destruct (t2_model_path b) as [e|path] eqn:Hp; simpl in Ho; [done|].
    unfold open_model in Ho.
    destruct (d path) as [model|] eqn:Hd; simpl in Ho; [|done].
    destruct (T2.getitem_mask (t2_candid b) mask) as [e|objects] eqn:Hc;
      simpl in Ho; [done|].
    destruct (mapM (object_probs pdf model) objects) as [e|vals] eqn:Hv;
      simpl in Ho; [done|].
    apply mapM_inr in Hv.
    split.
    { rewrite (setitem_mask_length _ _ _ _ Ho). apply length_replicate. }
    intros i.
    destruct (setitem_getitem_mask _ _ _ _ _ _ _ Hc Hv Ho i) as [Hf Ht].
    split.
    + intros Hi. rewrite (Hf Hi). by apply Hdef.
    + intros Hi. destruct (Ht Hi) as (c & v & Hci & Hoi & Hcv).
      exists c, pdf, path, model, v. split_and!; try done.
      by apply t2_model_path_source.
Qed.

End t2_positions.

(** C3 — In [t2], every record excluded by the selection cuts, or lacking
    exactly two distinct filters, sits at its original batch position in
    the output with the default mapping (each class label to -1.0), and
    every other record has at its original position the mapping of the
    class labels to the probabilities the model predicts for it. *)
Theorem t2_positions `{Libs} (w : world)
    (candid jd fid magpsf sigmapsf roid cdsxmatch jdstarthist : loc)
    (model_name : option loc) (b : t2_batch) (out : list probs) :
  t2_holds w candid jd fid magpsf sigmapsf roid cdsxmatch jdstarthist
    model_name b →
  (T2.t2 candid jd fid magpsf sigmapsf roid cdsxmatch jdstarthist model_name
     w).1 = inr out →
  ∃ mask,
    t2_mask b = inr mask ∧ length mask = length (t2_jd b) ∧
    length out = length (t2_jd b) ∧
    (∀ k, k ∈ T2_COLS → T2.default !! k = Some (-1)%Q) ∧
    ∀ i,
      (mask !! i = Some false → out !! i = Some T2.default) ∧
      (mask !! i = Some true →
         ∃ c pdf path model v,
           t2_candid b !! i = Some c ∧ t2_pdf b mask = inr pdf ∧
           model_source t2_default_model (t2_model_name b) path ∧
           disk w path = Some model ∧
           out !! i = Some v ∧
           ((n_filters (object_rows pdf c) ≠ 2 ∧ v = T2.default) ∨
            (n_filters (object_rows pdf c) = 2 ∧
             ∃ X values row,
               features c (object_rows pdf c) = inr X ∧
               model X = inr values ∧ values !! 0 = Some row ∧
               v = dict (zip T2_COLS row)))).
Proof.
  intros Hb Hout. rewrite (t2_result _ _ _ _ _ _ _ _ _ _ b Hb) in Hout.
  destruct (t2_outcome_positions _ _ _ Hout) as (mask & Hm & Hlen & Hlo & Hpos).
  exists mask. split_and!; try done; [apply default_sentinel|].
  intros i. destruct (Hpos i) as [Hf Ht]. split; [done|].
  intros Hi. destruct (Ht Hi) as (c & pdf & path & model & v & ? & ? & ? & ? & ? & Hv).
  exists c, pdf, path, model, v. split_and!; try done.
  by apply object_probs_cases.
Qed.

Lemma t2_positions_witness :
  ∃ out,
    (T2.t2 4 5 6 7 8 9 10 11 None Sample.good).1 = inr out ∧
    length out = 3 ∧
    out !! 1 = Some T2.default.
Proof.
  eexists. split; [reflexivity|].
  destruct (t2_positions Sample.good 4 5 6 7 8 9 10 11 None Sample.t2_sample
              _ ltac:(repeat split) eq_refl)
    as (mask & Hm & _ & Hlen & _ & Hpos).
  split; [exact Hlen|].
  injection Hm as <-. exact (proj1 (Hpos 1) eq_refl).
Defined.

Section nn_claims.
Context `{Libs}.

Lemma post_padded_fmap {A B} (f : A → B) maxlen value s row :
  post_padded maxlen value s row →
  post_padded maxlen (f value) (f <$> s) (f <$> row).
Proof.
  intros [Hlen ->]. split; [by rewrite length_fmap|].
  by rewrite fmap_app, fmap_drop, fmap_replicate, length_fmap.
Qed.

(** A stacked row has 395 steps of 4 channels, each channel a series
    padded after its data. *)
Lemma stacked_row_channels shifted flux_r error_r names codes :
  mapM (getitem Cats.filter_dict) names = inr codes →
  let row :=
    steps4 (Cats.pad_sequence id 395 (-999)%Q shifted)
           (Cats.pad_sequence id 395 (-999)%Q flux_r)
           (Cats.pad_sequence id 395 (-999)%Q error_r)
           (inject_Z <$> Cats.pad_sequence Cats.astype_uint8 395 0%Z
                           (Cats.astype_int16 <$> codes)) in
  length row = 395 ∧ Forall (λ st : list Q, length st = 4) row ∧
  post_padded 395 (-999)%Q shifted (row_channel 0 row) ∧
  post_padded 395 (-999)%Q flux_r (row_channel 1 row) ∧
  post_padded 395 (-999)%Q error_r (row_channel 2 row) ∧
  post_padded 395 0%Q (inject_Z <$> codes) (row_channel 3 row).
Proof.
  intros Hc row.
  destruct (steps4_channels
              (Cats.pad_sequence id 395 (-999)%Q shifted)
              (Cats.pad_sequence id 395 (-999)%Q flux_r)
              (Cats.pad_sequence id 395 (-999)%Q error_r)
              (inject_Z <$> Cats.pad_sequence Cats.astype_uint8 395 0%Z
                              (Cats.astype_int16 <$> codes)))
    as (Hl & Hf & H0 & H1 & H2 & H3);
    [by rewrite ?length_fmap, !pad_sequence_length..|].
  fold row in Hl, Hf, H0, H1, H2, H3.
  rewrite Hl, H0, H1, H2, H3, pad_sequence_length.
  split_and!; try done.
  - rewrite <- (list_fmap_id shifted) at 1. apply pad_sequence_post_padded.
  - rewrite <- (list_fmap_id flux_r) at 1. apply pad_sequence_post_padded.
  - rewrite <- (list_fmap_id error_r) at 1. apply pad_sequence_post_padded.
  - apply (post_padded_fmap inject_Z 395 0%Z).
    destruct (getitem_mapM_codes _ _ Hc) as (_ & _ & Hcast).
    rewrite <- Hcast at 1. apply pad_sequence_post_padded.
Qed.

Lemma nn_fed_tensor w midpointTai psFlux psFluxErr filterName model b lc :
  nn_holds w midpointTai psFlux psFluxErr filterName model b →
  lc ∈ fed (new_events w
              (Cats.predict_nn midpointTai psFlux psFluxErr filterName model
                 w).2) →
  nn_tensor b = inr lc.
Proof.
  intros Hb. rewrite (nn_events _ _ _ _ _ _ b Hb). apply nn_trace_fed.
Qed.

End nn_claims.

(** C4 — In [predict_nn], the tensor fed to the model has shape (number
    of objects, 395, 4): row [r] stacks, for object [r], its shifted
    times, its normalised fluxes, its normalised errors and its band
    codes, each cut to its last 395 entries when longer and then padded
    after the data to exactly 395 steps, with -999.0 for time, flux and
    error and with 0 for the band. *)
Theorem tensor_shape `{Libs} (w : world)
    (midpointTai psFlux psFluxErr filterName : loc) (model : option loc)
    (b : nn_batch) (lc : tensor) :
  nn_holds w midpointTai psFlux psFluxErr filterName model b →
  nn_aligned b →
  lc ∈ fed (new_events w
              (Cats.predict_nn midpointTai psFlux psFluxErr filterName model
                 w).2) →
  shape3 lc (length (nn_midpointTai b)) 395 4 ∧
  ∃ flux error,
    mapM norm_column (nn_psFlux b) = inr flux ∧
    mapM norm_column (nn_psFluxErr b) = inr error ∧
    ∀ r mjds, nn_midpointTai b !! r = Some mjds →
      ∃ names codes flux_r error_r row,
        mjds ≠ [] ∧ nn_filterName b !! r = Some names ∧
        mapM (getitem Cats.filter_dict) names = inr codes ∧
        flux !! r = Some flux_r ∧ error !! r = Some error_r ∧
        lc !! r = Some row ∧
        post_padded 395 (-999)%Q ((λ t, t - hd 0 mjds)%Q <$> mjds)
          (row_channel 0 row) ∧
        post_padded 395 (-999)%Q flux_r (row_channel 1 row) ∧
        post_padded 395 (-999)%Q error_r (row_channel 2 row) ∧
        post_padded 395 0%Q (inject_Z <$> codes) (row_channel 3 row).
Proof.
  intros Hb Hal Hfed. apply (nn_fed_tensor _ _ _ _ _ _ b) in Hfed; [|done].
  destruct (nn_tensor_rows b lc Hal Hfed)
    as (Hlen & flux & error & Hf & He & Hrows).
  split.
  - split; [done|]. apply Forall_lookup. intros r row Hrow.
    destruct (lookup_lt_is_Some_2 (nn_midpointTai b) r) as [mjds Hm].
    { apply lookup_lt_Some in Hrow. lia. }
    destruct (Hrows r mjds Hm)
      as (names & codes & flux_r & error_r & _ & _ & Hc & _ & _ & Hrow').
    rewrite Hrow in Hrow'. injection Hrow' as ->.
    destruct (stacked_row_channels ((λ t, t - hd 0 mjds)%Q <$> mjds)
                flux_r error_r names codes Hc) as (? & ? & _).
    done.
  - exists flux, error. split; [done|]. split; [done|].
    intros r mjds Hm.
    destruct (Hrows r mjds Hm)
      as (names & codes & flux_r & error_r & Hne & Hn & Hc & Hfr & Her & Hrow).
    destruct (stacked_row_channels ((λ t, t - hd 0 mjds)%Q <$> mjds)
                flux_r error_r names codes Hc) as (_ & _ & H0 & H1 & H2 & H3).
    eexists names, codes, flux_r, error_r, _. split_and!; done.
Qed.

Lemma tensor_shape_witness :
  ∃ lc,
    fed (new_events Sample.good
           (Cats.predict_nn 0 1 2 3 None Sample.good).2) = [lc] ∧
    shape3 lc 2 395 4.
Proof.
  eexists. split; [reflexivity|].
  refine (proj1 (tensor_shape Sample.good 0 1 2 3 None Sample.nn_sample _
                   _ _ _)).
  - repeat split.
  - repeat split.
  - apply list_elem_of_singleton. reflexivity.
Defined.

(** C10 — In [predict_nn] the band channel keeps padding apart from
    data: every filter name of the table has a code between 1 and 6, and
    in the tensor fed to the model the band value of a step is 0 exactly
    at the padded positions of its row, never at an observation. *)
Theorem band_padding `{Libs} (w : world)
    (midpointTai psFlux psFluxErr filterName : loc) (model : option loc)
    (b : nn_batch) (lc : tensor) :
  nn_holds w midpointTai psFlux psFluxErr filterName model b →
  nn_aligned b →
  lc ∈ fed (new_events w
              (Cats.predict_nn midpointTai psFlux psFluxErr filterName model
                 w).2) →
  (∀ f c, Cats.filter_dict !! f = Some c → (1 ≤ c ≤ 6)%Z) ∧
  ∀ r row j st, lc !! r = Some row → row !! j = Some st →
    ∃ names,
      nn_filterName b !! r = Some names ∧
      (nth 3 st 0%Q = 0%Q ↔ 395 `min` length names ≤ j) ∧
      (j < 395 `min` length names →
         ∃ c, nth 3 st 0%Q = inject_Z c ∧ (1 ≤ c ≤ 6)%Z).
Proof.
  intros Hb Hal Hfed. split; [apply filter_dict_codes|].
  apply (nn_fed_tensor _ _ _ _ _ _ b) in Hfed; [|done].
  destruct (nn_tensor_rows b lc Hal Hfed) as (Hlen & flux & error & _ & _ & Hrows).
  intros r row j st Hrow Hst.
  destruct (lookup_lt_is_Some_2 (nn_midpointTai b) r) as [mjds Hm].
  { apply lookup_lt_Some in Hrow. lia. }
  destruct (Hrows r mjds Hm)
    as (names & codes & flux_r & error_r & _ & Hn & Hc & _ & _ & Hrow').
  rewrite Hrow in Hrow'. injection Hrow' as ->.
  destruct (stacked_row_channels ((λ t, t - hd 0 mjds)%Q <$> mjds)
              flux_r error_r names codes Hc)
    as (Hl & _ & _ & _ & _ & [_ H3]).
  destruct (getitem_mapM_codes _ _ Hc) as (Hlc & Hcodes & _).
  exists names. split; [done|].
  assert (row_channel 3
            (steps4 (Cats.pad_sequence id 395 (-999)%Q
                       ((λ t, t - hd 0 mjds)%Q <$> mjds))
                    (Cats.pad_sequence id 395 (-999)%Q flux_r)
                    (Cats.pad_sequence id 395 (-999)%Q error_r)
                    (inject_Z <$> Cats.pad_sequence Cats.astype_uint8 395 0%Z
                                    (Cats.astype_int16 <$> codes))) !! j
          = Some (nth 3 st 0%Q)) as Hj
    by (unfold row_channel; by rewrite list_lookup_fmap, Hst).
  rewrite H3 in Hj. clear H3. rewrite length_fmap, Hlc in Hj.
  apply lookup_lt_Some in Hst as Hj395. rewrite Hl in Hj395.
  destruct (decide (j < 395 `min` length names)) as [Hdata|Hpad].
  - rewrite lookup_app_l in Hj by (rewrite length_drop, length_fmap; lia).
    rewrite lookup_drop, list_lookup_fmap in Hj.
    destruct (codes !! (length names - 395 + j)) as [c|] eqn:Hcj; [|done].
    injection Hj as Hj.
    assert (1 ≤ c ≤ 6)%Z as Hc16
      by (rewrite Forall_lookup in Hcodes; by eapply Hcodes).
    split; [|intros _; by exists c].
    split; [|lia]. rewrite <- Hj. intros [= ?]. lia.
  - rewrite lookup_app_r in Hj by (rewrite length_drop, length_fmap; lia).
    apply lookup_replicate in Hj as [Hj _].
    split; [|lia]. split; [lia|done].
Qed.

Lemma band_padding_witness :
  ∃ lc row st,
    fed (new_events Sample.good
           (Cats.predict_nn 0 1 2 3 None Sample.good).2) = [lc] ∧
    lc !! 0 = Some row ∧ row !! 5 = Some st ∧ nth 3 st 0%Q = 0%Q.
Proof.
  eexists _, _, _. split; [reflexivity|].
  split; [reflexivity|]. split; [reflexivity|].
  assert (nn_holds Sample.good 0 1 2 3 None Sample.nn_sample) as Hb
    by repeat split.
  assert (nn_aligned Sample.nn_sample) as Hal by repeat split.
  eassert (_ ∈ fed (new_events Sample.good
                      (Cats.predict_nn 0 1 2 3 None Sample.good).2)) as Hfed
    by (apply list_elem_of_singleton; reflexivity).
  destruct (proj2 (band_padding Sample.good 0 1 2 3 None Sample.nn_sample _
                     Hb Hal Hfed) 0 _ 5 _ eq_refl eq_refl)
    as (names & Hn & Hzero & _).
  apply Hzero. injection Hn as <-. simpl. lia.
Defined.

(** C1 — The output has one entry per input record.  [t2] keeps to it
    (its output has [len(jd)] entries).  [predict_nn] does not when
    a record is empty: the loop leaves the record out of the times and
    the band codes but not out of the fluxes and errors, the four arrays
    no longer have the same number of rows, and the call raises instead of
    returning. *)
Theorem empty_record_raises `{Libs} (w : world)
    (midpointTai psFlux psFluxErr filterName : loc) (model : option loc)
    (b : nn_batch) :
  nn_holds w midpointTai psFlux psFluxErr filterName model b →
  nn_aligned b →
  [] ∈ nn_midpointTai b →
  ∃ e, (Cats.predict_nn midpointTai psFlux psFluxErr filterName model w).1
       = inl e.
Proof.
  intros Hb Hal Hempty. rewrite (nn_result _ _ _ _ _ _ b Hb).
  destruct (nn_outcome b (disk w)) as [e|preds] eqn:Ho; [by exists e|].
  exfalso. unfold nn_outcome in Ho.
  destruct (nn_tensor b) as [e|lc] eqn:Hlc; [done|].
  destruct (nn_tensor_rows b lc Hal Hlc) as (_ & flux & error & _ & _ & Hrows).
  apply list_elem_of_lookup in Hempty as [r Hr].
  destruct (Hrows r [] Hr) as (? & ? & ? & ? & Hne & _). done.
Qed.

Lemma empty_record_raises_witness :
  (∃ e, (Cats.predict_nn 0 1 2 3 None Sample.with_empty).1 = inl e) ∧
  (Cats.predict_nn 0 1 2 3 None Sample.with_empty).1 = inl ValueError.
Proof.
  split; [|reflexivity].
  apply (empty_record_raises Sample.with_empty 0 1 2 3 None
           Sample.nn_sample_empty).
  - repeat split.
  - repeat split.
  - left.
Defined.

(** X1 — Whenever [predict_nn] returns on a batch whose columns have one
    entry per object, and the model gives one output row per tensor row,
    the result has one entry per input record. *)
Lemma predict_nn_length `{Libs} (w : world)
    (midpointTai psFlux psFluxErr filterName : loc) (model : option loc)
    (b : nn_batch) (preds : list (list Q)) :
  nn_holds w midpointTai psFlux psFluxErr filterName model b →
  nn_aligned b →
  (∀ path NN x y, disk w path = Some NN → NN x = inr y → length y = length x) →
  (Cats.predict_nn midpointTai psFlux psFluxErr filterName model w).1
  = inr preds →
  length preds = length (nn_midpointTai b).
Proof.
  intros Hb Hal Hmodel. rewrite (nn_result _ _ _ _ _ _ b Hb).
  unfold nn_outcome, open_model.
  destruct (nn_tensor b) as [e|lc] eqn:Hlc; simpl; [done|].
  destruct (nn_model_path b) as [e|path]; simpl; [done|].
  destruct (disk w path) as [NN|] eqn:Hd; simpl; [|done].
  intros Hp. rewrite (Hmodel _ _ _ _ Hd Hp).
  by destruct (nn_tensor_rows b lc Hal Hlc) as [-> _].
Qed.

Section malformed.
Context `{Libs}.

(** A record of [t2] without exactly two distinct filters: the loop
    appends the default mapping and goes on; no fit, no inference. *)
Lemma classify_default w vals acc pdf model candid_ :
  heap w !! vals = Some (ODicts acc) →
  n_filters (object_rows pdf candid_) ≠ 2 →
  T2.classify pdf model vals candid_ w
  = (inr (), set_heap (<[vals := ODicts (acc ++ [T2.default])]> (heap w)) w).
Proof.
  intros Hv Hn. destruct w as [h d lg]. simpl in *.
  unfold T2.classify. fold (object_rows pdf candid_).
  fold (n_filters (object_rows pdf candid_)).
  rewrite decide_True by done. unfold append_dict.
  rewrite run_bind, (run_read_dicts _ _ _ _ acc) by done.
  by rewrite (run_write _ _ _ _ (ODicts acc)).
Qed.

(** A filter name outside the table stops [predict_nn] with [KeyError]. *)
Lemma nn_outcome_unknown_filter b d i mjds names f :
  nn_midpointTai b !! i = Some mjds → mjds ≠ [] →
  nn_filterName b !! i = Some names → f ∈ names →
  Cats.filter_dict !! f = None →
  nn_outcome b d = inl KeyError.
Proof.
  intros Hm Hne Hn Hf Hnone. unfold nn_outcome, nn_tensor.
  assert (0 < length mjds) as Hlen by (destruct mjds; simpl; [done|lia]).
  rewrite (mapM_raises _ _ i (i, mjds) KeyError); [done| | |].
  - by apply lookup_enumerate.
  - unfold collect_item. simpl. rewrite decide_True by done.
    unfold index. rewrite Hn. simpl.
    apply list_elem_of_lookup in Hf as [k Hk].
    rewrite (mapM_raises _ _ k f KeyError); [done..| |].
    + unfold getitem. by rewrite Hnone.
    + intros j y e' _ _. unfold getitem. by destruct (_ !! y); intros [= <-].
  - intros j [j' mjds'] e' Hj Hit.
    apply lookup_enumerate_fst in Hit as [Heq Hm']. simpl in Heq, Hm'.
    subst j'. unfold collect_item. simpl. case_decide as Hl; [|done].
    unfold index.
    destruct (lookup_lt_is_Some_2 (nn_filterName b) j) as [names' ->].
    { apply lookup_lt_Some in Hn. lia. }
    simpl. destruct (mapM _ names') as [e''|codes] eqn:Hc; simpl.
    + intros [= <-]. by eapply getitem_mapM_error.
    + by rewrite rescale_nonempty.
Qed.

End malformed.

(** C2, as stated, fails: an unrecognised filter name makes [predict_nn]
    raise [KeyError]; no row is substituted, nothing is returned. *)
Lemma unknown_filter_raises :
  (Cats.predict_nn 0 1 2 3 None Sample.with_unknown).1 = inl KeyError ∧
  ¬ ∃ preds, (Cats.predict_nn 0 1 2 3 None Sample.with_unknown).1 = inr preds.
Proof.
  assert ((Cats.predict_nn 0 1 2 3 None Sample.with_unknown).1 = inl KeyError)
    as Hrun by reflexivity.
  split; [exact Hrun|]. intros [preds Hp]. rewrite Hrun in Hp. discriminate.
Qed.

(** C2 (amended) — In [t2], a selected record whose light curve does not
    show exactly two distinct filters is given the default mapping: the
    loop appends it without fitting or running the model and without
    raising, and it is what the output holds at the record's position.
    [predict_nn] substitutes nothing: a non-empty record with a filter
    name outside the table makes the call raise [KeyError]. *)
Theorem malformed_records `{Libs} (w : world) :
  (∀ vals acc pdf model candid_,
     heap w !! vals = Some (ODicts acc) →
     n_filters (object_rows pdf candid_) ≠ 2 →
     T2.classify pdf model vals candid_ w
     = (inr (),
        set_heap (<[vals := ODicts (acc ++ [T2.default])]> (heap w)) w)) ∧
  (∀ candid jd fid magpsf sigmapsf roid cdsxmatch jdstarthist model_name
     b out mask pdf i c,
     t2_holds w candid jd fid magpsf sigmapsf roid cdsxmatch jdstarthist
       model_name b →
     (T2.t2 candid jd fid magpsf sigmapsf roid cdsxmatch jdstarthist
        model_name w).1 = inr out →
     t2_mask b = inr mask → t2_pdf b mask = inr pdf →
     mask !! i = Some true → t2_candid b !! i = Some c →
     n_filters (object_rows pdf c) ≠ 2 →
     out !! i = Some T2.default) ∧
  (∀ midpointTai psFlux psFluxErr filterName model b i mjds names f,
     nn_holds w midpointTai psFlux psFluxErr filterName model b →
     nn_midpointTai b !! i = Some mjds → mjds ≠ [] →
     nn_filterName b !! i = Some names → f ∈ names →
     Cats.filter_dict !! f = None →
     (Cats.predict_nn midpointTai psFlux psFluxErr filterName model w).1
     = inl KeyError).
Proof.
  split_and!.
  - intros. by apply classify_default.
  - intros candid jd fid magpsf sigmapsf roid cdsxmatch jdstarthist model_name
      b out mask pdf i c Hb Hout Hm Hpdf Hi Hc Hn.
    rewrite (t2_result _ _ _ _ _ _ _ _ _ _ b Hb) in Hout.
    destruct (t2_outcome_positions _ _ _ Hout) as (mask' & Hm' & _ & _ & Hpos).
    rewrite Hm in Hm'. injection Hm' as <-.
    destruct (proj2 (Hpos i) Hi)
      as (c' & pdf' & path & model & v & Hc' & Hpdf' & _ & _ & Hv & Hp).
    rewrite Hc in Hc'. injection Hc' as <-.
    rewrite Hpdf in Hpdf'. injection Hpdf' as <-.
    unfold object_probs in Hp. rewrite decide_True in Hp by done.
    by injection Hp as <-.
  - intros midpointTai psFlux psFluxErr filterName model b i mjds names f
      Hb Hm Hne Hn Hf Hnone.
    rewrite (nn_result _ _ _ _ _ _ b Hb).
    by eapply nn_outcome_unknown_filter.
Qed.

Lemma malformed_records_witness :
  (∃ out, (T2.t2 4 5 6 7 8 9 10 11 None Sample.good).1 = inr out ∧
          out !! 2 = Some T2.default) ∧
  (Cats.predict_nn 0 1 2 3 None Sample.with_unknown).1 = inl KeyError.
Proof.
  split.
  - eexists. split; [reflexivity|].
    eapply (proj1 (proj2 (malformed_records Sample.good))
              4 5 6 7 8 9 10 11 None Sample.t2_sample _ _ _ 2 12%Z).
    + repeat split.
    + reflexivity.
    + reflexivity.
    + reflexivity.
    + reflexivity.
    + reflexivity.
    + vm_compute. lia.
  - eapply (proj2 (proj2 (malformed_records Sample.with_unknown))
              0 1 2 3 None Sample.nn_sample_unknown 1 _ _ "x").
    + repeat split.
    + reflexivity.
    + done.
    + reflexivity.
    + left.
    + reflexivity.
Defined.

(** * Further properties of the processors *)

Lemma sample_model_rows path NN x y :
  Sample.files path = Some NN → NN x = inr y → length y = length x.
Proof.
  unfold Sample.files. case_decide; [|done]. intros [= <-].
  unfold Sample.model. intros [= <-]. apply length_fmap.
Qed.

Lemma predict_nn_length_witness :
  ∃ preds,
    (Cats.predict_nn 0 1 2 3 None Sample.good).1 = inr preds ∧
    length preds = 2.
Proof.
  assert (nn_holds Sample.good 0 1 2 3 None Sample.nn_sample) as Hb
    by repeat split.
  assert (nn_aligned Sample.nn_sample) as Hal by repeat split.
  eexists. split; [reflexivity|].
  exact (predict_nn_length Sample.good 0 1 2 3 None Sample.nn_sample _
           Hb Hal sample_model_rows eq_refl).
Defined.

(** X2 — [predict_nn] reads its model only once the whole tensor is
    built, and runs it at most once, after the read: a call that fails
    before (an empty record, an unknown filter, a model column without a
    first entry) touches no model file; a missing file raises after the
    read and before any inference; otherwise the result is what the model
    gives on the tensor. *)
Theorem predict_nn_events `{Libs} (w : world)
    (midpointTai psFlux psFluxErr filterName : loc) (model : option loc)
    (b : nn_batch) :
  nn_holds w midpointTai psFlux psFluxErr filterName model b →
  let r := Cats.predict_nn midpointTai psFlux psFluxErr filterName model w in
  (new_events w r.2 = [] ∧ ∃ e, r.1 = inl e) ∨
  (∃ path, new_events w r.2 = [EvLoad path] ∧ disk w path = None ∧
           r.1 = inl OSError) ∨
  (∃ path NN lc, new_events w r.2 = [EvLoad path; EvPredict lc] ∧
                 disk w path = Some NN ∧ r.1 = NN lc).
Proof.
  intros Hb r. subst r.
  rewrite (nn_events _ _ _ _ _ _ b Hb), (nn_result _ _ _ _ _ _ b Hb).
  unfold nn_trace, nn_outcome, open_model.
  destruct (nn_tensor b) as [e|lc]; simpl; [left; eauto|].
  destruct (nn_model_path b) as [e|path]; simpl; [left; eauto|].
  destruct (disk w path) as [NN|] eqn:Hd; simpl.
  - right. right. by exists path, NN, lc.
  - right. left. by exists path.
Qed.

Lemma predict_nn_events_witness :
  new_events Sample.with_unknown
    (Cats.predict_nn 0 1 2 3 None Sample.with_unknown).2 = [] ∧
  ∃ lc, new_events Sample.good (Cats.predict_nn 0 1 2 3 None Sample.good).2
        = [EvLoad Cats.default_model; EvPredict lc].
Proof.
  split.
  - destruct (predict_nn_events Sample.with_unknown 0 1 2 3 None
                Sample.nn_sample_unknown ltac:(repeat split))
      as [[He _]|[(path & _ & _ & Hr)|(path & NN & lc & _ & _ & Hr)]].
    + exact He.
    + discriminate Hr.
    + reflexivity.
  - eexists. reflexivity.
Defined.

(** X3 — [predict_nn] on an empty batch.  Without a model column it
    reads the default model and returns what the model gives on the empty
    tensor.  With a model column, which is then empty as well, taking its
    first entry raises [IndexError]; no model file is read. *)
Theorem predict_nn_empty_batch `{Libs} (w : world)
    (midpointTai psFlux psFluxErr filterName : loc) (model : option loc)
    (b : nn_batch) :
  nn_holds w midpointTai psFlux psFluxErr filterName model b →
  nn_midpointTai b = [] → nn_psFlux b = [] → nn_psFluxErr b = [] →
  let r := Cats.predict_nn midpointTai psFlux psFluxErr filterName model w in
  match nn_model b with
  | None =>
      r.1 = (NN ← open_model (disk w) Cats.default_model; NN []) ∧
      loads (new_events w r.2) = [Cats.default_model]
  | Some paths =>
      paths = [] → r.1 = inl IndexError ∧ new_events w r.2 = []
  end.
Proof.
  intros Hb Ht Hf He r. subst r.
  rewrite (nn_events _ _ _ _ _ _ b Hb), (nn_result _ _ _ _ _ _ b Hb).
  unfold nn_trace, nn_outcome, nn_tensor, nn_model_path, open_model.
  rewrite Ht, Hf, He. simpl.
  destruct (nn_model b) as [paths|].
  - by intros ->.
  - simpl. split; [done|]. by destruct (disk w Cats.default_model).
Qed.

Lemma predict_nn_empty_batch_witness :
  (Cats.predict_nn 0 1 2 3 None SampleMore.empty_world).1 = inr [] ∧
  (Cats.predict_nn 0 1 2 3 (Some 4) SampleMore.empty_world).1 = inl IndexError.
Proof.
  split.
  - exact (proj1 (predict_nn_empty_batch SampleMore.empty_world 0 1 2 3 None
                    (SampleMore.nn_empty None) ltac:(repeat split)
                    eq_refl eq_refl eq_refl)).
  - exact (proj1 (predict_nn_empty_batch SampleMore.empty_world 0 1 2 3
                    (Some 4) (SampleMore.nn_empty (Some []))
                    ltac:(repeat split) eq_refl eq_refl eq_refl eq_refl)).
Defined.

Section truncation.
Context `{Libs}.

Lemma post_padded_short {A} maxlen (value : A) s row :
  post_padded maxlen value s row → length s ≤ maxlen →
  take (length s) row = s ∧
  drop (length s) row = replicate (maxlen - length s) value.
Proof.
  intros [_ ->] Hlen. replace (length s - maxlen) with 0 by lia.
  rewrite drop_0. by rewrite take_app_length, drop_app_length.
Qed.

Lemma post_padded_long {A} maxlen (value : A) s row :
  post_padded maxlen value s row → maxlen ≤ length s →
  row = drop (length s - maxlen) s.
Proof.
  intros [_ ->] Hlen. replace (maxlen - length s) with 0 by lia.
  apply app_nil_r.
Qed.

End truncation.

(** X4 — What [predict_nn] keeps of a light curve.  A record with at most
    395 observations can be read back from its row of the tensor: the
    first [len] steps of the time channel are the shifted times, the other
    steps are -999.  A record with more than 395 observations loses its
    earliest ones: the row has no padding and its time channel is the
    last 395 shifted times, so it starts at [t[len-395] - t[0]], not at
    0. *)
Theorem series_kept `{Libs} (w : world)
    (midpointTai psFlux psFluxErr filterName : loc) (model : option loc)
    (b : nn_batch) (lc : tensor) (r : nat) (mjds : list Q)
    (row : list (list Q)) :
  nn_holds w midpointTai psFlux psFluxErr filterName model b →
  nn_aligned b →
  lc ∈ fed (new_events w
              (Cats.predict_nn midpointTai psFlux psFluxErr filterName model
                 w).2) →
  nn_midpointTai b !! r = Some mjds → lc !! r = Some row →
  let shifted := (λ t, t - hd 0 mjds)%Q <$> mjds in
  (length mjds ≤ 395 →
     take (length mjds) (row_channel 0 row) = shifted ∧
     drop (length mjds) (row_channel 0 row)
     = replicate (395 - length mjds) (-999)%Q) ∧
  (395 < length mjds →
     row_channel 0 row = drop (length mjds - 395) shifted ∧
     ∀ t, mjds !! (length mjds - 395) = Some t →
          row_channel 0 row !! 0 = Some (t - hd 0 mjds)%Q).
Proof.
  intros Hb Hal Hfed Hm Hrow shifted. subst shifted.
  apply (nn_fed_tensor _ _ _ _ _ _ b) in Hfed; [|done].
  destruct (nn_tensor_rows b lc Hal Hfed) as (_ & flux & error & _ & _ & Hrows).
  destruct (Hrows r mjds Hm)
    as (names & codes & flux_r & error_r & _ & _ & Hc & _ & _ & Hrow').
  rewrite Hrow in Hrow'. injection Hrow' as ->.
  destruct (stacked_row_channels ((λ t, t - hd 0 mjds)%Q <$> mjds)
              flux_r error_r names codes Hc) as (_ & _ & H0 & _).
  assert (length ((λ t, t - hd 0 mjds)%Q <$> mjds) = length mjds) as Hls
    by apply length_fmap.
  split.
  - intros Hlen. rewrite <- Hls. apply post_padded_short; [done|lia].
  - intros Hlen.
    rewrite (post_padded_long _ _ _ _ H0) by lia. rewrite Hls.
    split; [done|]. intros t Ht.
    rewrite lookup_drop, Nat.add_0_r.
    by rewrite list_lookup_fmap, Ht.
Qed.

Lemma series_kept_witness :
  ∃ lc row,
    fed (new_events SampleMore.long_world
           (Cats.predict_nn 0 1 2 3 None SampleMore.long_world).2) = [lc] ∧
    lc !! 0 = Some row ∧
    row_channel 0 row !! 0 = Some (inject_Z (59000 + 5) - 59000)%Q.
Proof.
  eexists _, _. split; [reflexivity|]. split; [reflexivity|].
  eassert (_ ∈ fed (new_events SampleMore.long_world
                      (Cats.predict_nn 0 1 2 3 None SampleMore.long_world).2))
    as Hfed by (apply list_elem_of_singleton; reflexivity).
  exact (proj2 (proj2 (series_kept SampleMore.long_world 0 1 2 3 None
                         SampleMore.nn_long _ 0 SampleMore.long_times _
                         ltac:(repeat split) ltac:(repeat split) Hfed
                         eq_refl eq_refl)
                  ltac:(vm_compute; lia))
           (inject_Z (59000 + 5)) eq_refl).
Defined.

(** ** The frame [t2] classifies from *)

Lemma notna_complete (r : snana_row) :
  T2.notna (LcRow None (SNID r) (MJD r) (FLUXCAL r) (FLUXCALERR r) (FLT r))
  = true ↔ complete r.
Proof.
  unfold T2.notna, complete. simpl.
  rewrite !andb_true_iff, !bool_decide_eq_true. tauto.
Qed.

Lemma dropna_rename raw :
  T2.dropna (T2.rename raw) = T2.rename (filter (λ lr, complete lr.2) raw).
Proof.
  unfold T2.dropna, T2.rename.
  induction raw as [|[old r] raw IH]; [done|].
  rewrite fmap_cons, !filter_cons. simpl.
  destruct (decide (complete r)) as [Hc|Hc].
  - rewrite decide_True by by apply notna_complete.
    rewrite fmap_cons. simpl. by rewrite IH.
  - rewrite decide_False; [done|]. by rewrite notna_complete.
Qed.

Lemma cleaned_lookup raw i lr :
  T2.reset_index (T2.dropna (T2.rename raw)) !! i = Some lr →
  ∃ old r,
    filter (λ lr, complete lr.2) raw !! i = Some (old, r) ∧ complete r ∧
    lr = (i, LcRow (Some old) (SNID r) (MJD r) (FLUXCAL r) (FLUXCALERR r)
                   (FLT r)).
Proof.
  unfold T2.reset_index. rewrite list_lookup_imap, dropna_rename.
  unfold T2.rename. rewrite list_lookup_fmap.
  destruct (filter _ raw !! i) as [[old r]|] eqn:Hi; simpl; [|done].
  intros [= <-]. exists old, r. split_and!; [done| |done].
  apply list_elem_of_lookup_2, list_elem_of_filter in Hi. tauto.
Qed.

(** X5 — The frame [t2] hands to the per-object loop, after [rename],
    [dropna] and [reset_index]: it holds exactly the rows of the formatted
    frame that have no missing cell, in their order; its labels are
    0, 1, 2, ...; every row keeps its old label in the column [index] and
    has none of its cells missing. *)
Theorem frame_cleaned (raw : list (nat * snana_row)) :
  let pdf := T2.reset_index (T2.dropna (T2.rename raw)) in
  let kept_rows := filter (λ lr, complete lr.2) raw in
  length pdf = length kept_rows ∧
  pdf.*1 = seq 0 (length pdf) ∧
  Forall (λ lr, T2.notna lr.2 = true ∧ is_Some (r_index lr.2)) pdf ∧
  r_index <$> pdf.*2 = Some <$> kept_rows.*1 ∧
  (λ r, (r_object_id r, r_mjd r, r_flux r, r_flux_error r, r_filter r))
    <$> pdf.*2
  = (λ r, (SNID r, MJD r, FLUXCAL r, FLUXCALERR r, FLT r)) <$> kept_rows.*2.
Proof.
  intros pdf kept_rows.
  assert (length pdf = length kept_rows) as Hlen.
  { unfold pdf, T2.reset_index. rewrite length_imap, dropna_rename.
    unfold T2.rename. by rewrite length_fmap. }
  assert (∀ i lr, pdf !! i = Some lr →
            ∃ old r, kept_rows !! i = Some (old, r) ∧ complete r ∧
              lr = (i, LcRow (Some old) (SNID r) (MJD r) (FLUXCAL r)
                             (FLUXCALERR r) (FLT r))) as Hrows
    by apply cleaned_lookup.
  split; [done|]. split_and!.
  - apply list_eq. intros i. rewrite list_lookup_fmap.
    destruct (pdf !! i) as [lr|] eqn:Hi; simpl.
    + destruct (Hrows i lr Hi) as (old & r & _ & _ & ->). simpl.
      symmetry. apply lookup_seq. split; [done|]. by apply lookup_lt_Some in Hi.
    + symmetry. apply lookup_ge_None. rewrite length_seq.
      by apply lookup_ge_None in Hi.
  - apply Forall_lookup. intros i lr Hi.
    destruct (Hrows i lr Hi) as (old & r & _ & Hc & ->). simpl.
    split; [|by eexists]. unfold T2.notna. simpl.
    destruct Hc as (? & ? & ? & ? & ?).
    by rewrite !andb_true_iff, !bool_decide_eq_true.
  - apply list_eq. intros i. rewrite !list_lookup_fmap.
    destruct (pdf !! i) as [lr|] eqn:Hi; simpl.
    + destruct (Hrows i lr Hi) as (old & r & -> & _ & ->). done.
    + apply lookup_ge_None in Hi. rewrite Hlen in Hi.
      apply lookup_ge_None in Hi. by rewrite Hi.
  - apply list_eq. intros i. rewrite !list_lookup_fmap.
    destruct (pdf !! i) as [lr|] eqn:Hi; simpl.
    + destruct (Hrows i lr Hi) as (old & r & -> & _ & ->). done.
    + apply lookup_ge_None in Hi. rewrite Hlen in Hi.
      apply lookup_ge_None in Hi. by rewrite Hi.
Qed.

Lemma cleaned_object_rows raw candid_ :
  (∀ lr, lr ∈ raw → SNID lr.2 = Some candid_ → ¬ complete lr.2) →
  object_rows (T2.reset_index (T2.dropna (T2.rename raw))) candid_ = [].
Proof.
  intros Hraw. unfold object_rows.
  destruct (filter _ _) as [|lr rest] eqn:Hf; [done|]. exfalso.
  assert (lr ∈ lr :: rest) as Hin by left. rewrite <- Hf in Hin.
  apply list_elem_of_filter in Hin as [Hid Hin].
  apply list_elem_of_lookup in Hin as [i Hi].
  destruct (cleaned_lookup raw i lr Hi) as (old & r & Hk & Hc & ->).
  simpl in Hid.
  apply list_elem_of_lookup_2, list_elem_of_filter in Hk as [_ Hk].
  by apply (Hraw (old, r)).
Qed.

(** X6 — A selected record with no complete row in the formatted frame
    (every row of it has a missing cell, or it has no row at all) gets the
    default mapping: [dropna] removes its rows, the count of distinct
    filters is 0, and the loop appends the default without fitting or
    running the model and without raising. *)
Theorem incomplete_record_default `{Libs} (w : world) (vals : loc)
    (acc : list probs) (raw : list (nat * snana_row)) (model : artifact)
    (candid_ : Z) :
  heap w !! vals = Some (ODicts acc) →
  (∀ lr, lr ∈ raw → SNID lr.2 = Some candid_ → ¬ complete lr.2) →
  T2.classify (T2.reset_index (T2.dropna (T2.rename raw))) model vals candid_ w
  = (inr (), set_heap (<[vals := ODicts (acc ++ [T2.default])]> (heap w)) w).
Proof.
  intros Hv Hraw. apply classify_default; [done|].
  by rewrite cleaned_object_rows.
Qed.

Lemma incomplete_record_default_witness :
  (T2.classify (T2.reset_index (T2.dropna (T2.rename SampleMore.raw)))
     Sample.model 0 11%Z (World [ODicts []] Sample.files [])).1 = inr ().
Proof.
  rewrite (incomplete_record_default (World [ODicts []] Sample.files []) 0 []
             SampleMore.raw Sample.model 11%Z eq_refl); [done|].
  intros lr Hin Hid (_ & _ & [x Hx] & _).
  repeat (apply elem_of_cons in Hin as [->|Hin]; [by simplify_eq/=|]).
  by apply elem_of_nil in Hin.
Defined.

(** ** The output of [t2] *)

Section t2_output.
Context `{Libs}.

Lemma model_source_unique default_path column p q :
  model_source default_path column p → model_source default_path column q →
  p = q.
Proof. unfold model_source. destruct column; congruence. Qed.

Lemma dict_lookup_keys `{Countable K} {V} (kvs : list (K * V)) k v :
  dict kvs !! k = Some v → k ∈ kvs.*1.
Proof.
  unfold dict.
  assert (∀ m : gmap K V,
    foldl (λ d kv, <[kv.1:=kv.2]> d) m kvs !! k = Some v →
    k ∈ kvs.*1 ∨ m !! k = Some v) as Hgen.
  { induction kvs as [|[k' v'] kvs IH]; intros m; simpl; [by right|].
    intros [Hin|Hm]%IH; [left; by right|].
    destruct (decide (k' = k)) as [->|Hne]; [left; by left|].
    rewrite lookup_insert_ne in Hm by done. by right. }
  intros [?|Hm]%Hgen; [done|]. by rewrite lookup_empty in Hm.
Qed.

(** With distinct keys, [dict(zip(keys, values))] maps key [i] to value
    [i], and a key without a value is absent. *)
Lemma dict_zip_lookup `{Countable K} {V} (ks : list K) (vs : list V) i k :
  NoDup ks → ks !! i = Some k → dict (zip ks vs) !! k = vs !! i.
Proof.
  unfold dict. intros Hnd Hk.
  assert (∀ m : gmap K V,
    foldl (λ d kv, <[kv.1:=kv.2]> d) m (zip ks vs) !! k
    = match vs !! i with Some v => Some v | None => m !! k end) as Hgen.
  { revert vs i Hk. induction Hnd as [|k' ks Hnin Hnd IH];
      intros vs i Hk m; [done|].
    destruct vs as [|v vs]; simpl; [by destruct i|].
    destruct i as [|i]; simpl in *.
    - injection Hk as ->.
      assert (∀ m' : gmap K V,
        foldl (λ d kv, <[kv.1:=kv.2]> d) m' (zip ks vs) !! k = m' !! k)
        as Hstay.
      { clear IH Hnd. revert vs. induction ks as [|k'' ks IHk];
          intros vs m'; [done|]. destruct vs as [|v' vs]; [done|]. simpl.
        rewrite IHk by (intros ?; apply Hnin; by right).
        apply lookup_insert_ne. intros ->. apply Hnin. by left. }
      rewrite Hstay. apply lookup_insert_eq.
    - rewrite (IH vs i Hk). destruct (vs !! i); [done|].
      apply lookup_insert_ne. intros ->.
      apply Hnin. by eapply list_elem_of_lookup_2. }
  rewrite Hgen. destruct (vs !! i); [done|]. apply lookup_empty.
Qed.

End t2_output.

(** X7 — Two selected records of a batch that carry the same candidate
    id get the same mapping from [t2]: each is classified from all the
    rows of the frame with that id. *)
Theorem same_candid_same_row `{Libs} (w : world)
    (candid jd fid magpsf sigmapsf roid cdsxmatch jdstarthist : loc)
    (model_name : option loc) (b : t2_batch) (out : list probs)
    (mask : list bool) (i j : nat) (c : Z) :
  t2_holds w candid jd fid magpsf sigmapsf roid cdsxmatch jdstarthist
    model_name b →
  (T2.t2 candid jd fid magpsf sigmapsf roid cdsxmatch jdstarthist model_name
     w).1 = inr out →
  t2_mask b = inr mask →
  mask !! i = Some true → mask !! j = Some true →
  t2_candid b !! i = Some c → t2_candid b !! j = Some c →
  out !! i = out !! j.
Proof.
  intros Hb Hout Hm Hi Hj Hci Hcj.
  rewrite (t2_result _ _ _ _ _ _ _ _ _ _ b Hb) in Hout.
  destruct (t2_outcome_positions _ _ _ Hout) as (mask' & Hm' & _ & _ & Hpos).
  rewrite Hm in Hm'. injection Hm' as <-.
  destruct (proj2 (Hpos i) Hi)
    as (c1 & pdf1 & p1 & m1 & v1 & Hc1 & Hpdf1 & Hs1 & Hd1 & -> & Hv1).
  destruct (proj2 (Hpos j) Hj)
    as (c2 & pdf2 & p2 & m2 & v2 & Hc2 & Hpdf2 & Hs2 & Hd2 & -> & Hv2).
  assert (pdf1 = pdf2) as -> by congruence.
  assert (p1 = p2) as -> by by eapply model_source_unique.
  assert (m1 = m2) as -> by congruence.
  assert (c1 = c2) as -> by congruence.
  congruence.
Qed.

Lemma same_candid_same_row_witness :
  ∃ out,
    (T2.t2 0 1 2 3 4 5 6 7 None SampleMore.twin_world).1 = inr out ∧
    out !! 0 = out !! 1.
Proof.
  eexists. split; [reflexivity|].
  exact (same_candid_same_row SampleMore.twin_world 0 1 2 3 4 5 6 7 None
           SampleMore.t2_twin _ [true; true] 0 1 10%Z
           ltac:(repeat split) eq_refl eq_refl eq_refl eq_refl eq_refl
           eq_refl).
Defined.

(** X8 — The mappings [t2] returns never carry a label outside [T2_COLS].
    When the labels of [T2_COLS] are distinct, a prediction gives label
    number [k] the probability number [k] of the model's first output row,
    and a label for which that row has no entry is absent from the mapping
    (it is not set to -1). *)
Theorem output_labels `{Libs} (w : world)
    (candid jd fid magpsf sigmapsf roid cdsxmatch jdstarthist : loc)
    (model_name : option loc) (b : t2_batch) (out : list probs) :
  t2_holds w candid jd fid magpsf sigmapsf roid cdsxmatch jdstarthist
    model_name b →
  (T2.t2 candid jd fid magpsf sigmapsf roid cdsxmatch jdstarthist model_name
     w).1 = inr out →
  (∀ i (v : probs) label p,
     out !! i = Some v → v !! label = Some p → label ∈ T2_COLS) ∧
  (NoDup T2_COLS →
   ∀ (row : list Q) k label, T2_COLS !! k = Some label →
     dict (zip T2_COLS row) !! label = row !! k).
Proof.
  intros Hb Hout. split.
  - rewrite (t2_result _ _ _ _ _ _ _ _ _ _ b Hb) in Hout.
    destruct (t2_outcome_positions _ _ _ Hout) as (mask & Hm & Hlm & Hlo & Hpos).
    intros i v label p Hi Hl.
    assert (is_Some (mask !! i)) as [[] Hmi].
    { apply lookup_lt_is_Some. apply lookup_lt_Some in Hi. lia. }
    + destruct (proj2 (Hpos i) Hmi)
        as (c & pdf & path & model & v' & _ & _ & _ & _ & Hv' & Hp).
      rewrite Hi in Hv'. injection Hv' as <-.
      apply object_probs_cases in Hp
        as [[_ ->]|(_ & X & values & row & _ & _ & _ & ->)].
      * rewrite default_lookup in Hl. by case_decide.
      * apply dict_lookup_keys, list_elem_of_fmap in Hl
          as ([label' p'] & -> & Hin).
        by eapply elem_of_zip_l.
    + rewrite (proj1 (Hpos i) Hmi) in Hi. injection Hi as <-.
      rewrite default_lookup in Hl. by case_decide.
  - intros Hnd row k label Hk. by apply dict_zip_lookup.
Qed.

Lemma output_labels_witness :
  dict (zip T2_COLS [1 # 4; 3 # 4]%Q) !! "AGN" = Some (3 # 4)%Q.
Proof.
  assert (NoDup T2_COLS) as Hnd by (by apply (bool_decide_unpack _)).
  exact (proj2 (output_labels Sample.good 4 5 6 7 8 9 10 11 None
                  Sample.t2_sample _ ltac:(repeat split) eq_refl)
           Hnd [1 # 4; 3 # 4]%Q 1 "AGN" eq_refl).
Defined.

(** X9 — The masked assignment [to_return[mask] = vals] and the masked
    read [col[mask]]: after the assignment, reading the array through the
    same mask gives back [vals], in order, and reading it through the
    complement of the mask gives what was there before. *)
Theorem mask_assign_read {A} (arr : list A) (mask : list bool)
    (vals out : list A) :
  T2.setitem_mask arr mask vals = inr out →
  T2.getitem_mask out mask = inr vals ∧
  T2.getitem_mask out (negb <$> mask) = T2.getitem_mask arr (negb <$> mask).
Proof.
  revert mask vals out.
  induction arr as [|x arr IH]; intros [|[] mask] vals out Hs;
    simpl in Hs; try done.
  - destruct vals; [|done]. by injection Hs as <-.
  - destruct vals as [|v vals]; [done|].
    destruct (T2.setitem_mask arr mask vals) as [e|rest] eqn:Hr; [done|].
    injection Hs as <-. destruct (IH _ _ _ Hr) as [H1 H2].
    rewrite fmap_cons. cbn [T2.getitem_mask negb]. by rewrite H1, H2.
  - destruct (T2.setitem_mask arr mask vals) as [e|rest] eqn:Hr; [done|].
    injection Hs as <-. destruct (IH _ _ _ Hr) as [H1 H2].
    rewrite fmap_cons. cbn [T2.getitem_mask negb]. by rewrite H1, H2.
Qed.

Lemma mask_assign_read_witness :
  T2.getitem_mask [7; 1; 8; 3] [true; false; true; false] = inr [7; 8].
Proof.
  exact (proj1 (mask_assign_read [0; 1; 2; 3] [true; false; true; false]
                  [7; 8] [7; 1; 8; 3] eq_refl)).
Defined.

(** ** [maxclass] *)

(** X10 — [maxclass] gives one label per mapping of its column, the
    label at a position being [extract_maxclass] of the mapping at that
    position; it raises as soon as [extract_maxclass] raises on a mapping,
    with the exception of the first such mapping.  It changes nothing on
    the heap and runs no model. *)
Theorem maxclass_labels (extract_maxclass : probs → result string)
    (w : world) (dic : loc) (column : list probs) :
  heap w !! dic = Some (ODicts column) →
  (maxclass extract_maxclass dic w).2 = w ∧
  (∀ labels, (maxclass extract_maxclass dic w).1 = inr labels →
     length labels = length column ∧
     ∀ i x, column !! i = Some x →
       ∃ label, labels !! i = Some label ∧ extract_maxclass x = inr label) ∧
  (∀ i x e, column !! i = Some x → extract_maxclass x = inl e →
     (∀ j y, j < i → column !! j = Some y →
        ∃ label, extract_maxclass y = inr label) →
     (maxclass extract_maxclass dic w).1 = inl e).
Proof.
  intros Hd. destruct w as [h d lg]. simpl in Hd. unfold maxclass.
  rewrite run_bind, (run_read_dicts _ _ _ _ column) by done.
  rewrite run_lift. split_and!.
  - by destruct (mapM extract_maxclass column).
  - intros labels.
    destruct (mapM extract_maxclass column) as [e|ls] eqn:Hm; simpl; [done|].
    intros [= <-]. split; [by eapply mapM_inr_length|].
    apply mapM_inr in Hm. intros i x Hx.
    destruct (Forall2_lookup_l _ _ _ i x Hm Hx) as (label & ? & ?). eauto.
  - intros i x e Hx He Hbefore.
    rewrite (mapM_raises _ _ i x e Hx He); [done|].
    intros j y e' Hj Hy Hye. destruct (Hbefore j y Hj Hy) as [label Hl].
    congruence.
Qed.

Lemma maxclass_labels_witness :
  (maxclass SampleMore.extract 0
     (World [ODicts [dict [("SNIa", 1 # 4); ("AGN", 3 # 4)]%Q]]
            Sample.files [])).2
  = World [ODicts [dict [("SNIa", 1 # 4); ("AGN", 3 # 4)]%Q]] Sample.files [] ∧
  (maxclass SampleMore.extract 0
     (World [ODicts [dict [("SNIa", 1 # 4); ("AGN", 3 # 4)]%Q]]
            Sample.files [])).1 = inr ["AGN"].
Proof.
  split; [|reflexivity].
  exact (proj1 (maxclass_labels SampleMore.extract
                  (World [ODicts [dict [("SNIa", 1 # 4); ("AGN", 3 # 4)]%Q]]
                         Sample.files [])
                  0 [dict [("SNIa", 1 # 4); ("AGN", 3 # 4)]%Q] eq_refl)).
Defined.

(** ** What [t2] runs its model on *)

Section t2_feeding.
Context `{Libs}.

Lemma classify_fed h extra d lg acc pdf model candid_ :
  ∃ extra',
    T2.classify pdf model (length h) candid_
      (World (h ++ ODicts acc :: extra) d lg)
    = (match object_probs pdf model candid_ with
       | inl e => inl e
       | inr _ => inr tt
       end,
       World (h ++ ODicts (match object_probs pdf model candid_ with
                           | inl _ => acc
                           | inr p => acc ++ [p]
                           end) :: extra') d
             (lg ++ (EvPredict <$> object_fed pdf candid_))).
Proof.
  unfold T2.classify, object_probs, object_fed, features, object_rows,
    n_filters.
  case_decide as Hn.
  { exists extra. by rewrite run_append_dict, app_nil_r. }
  rewrite run_lift.
  destruct (generate_gp_all_objects _ _ _) as [e|gp]; simpl.
  { exists extra. by rewrite app_nil_r. }
  rewrite run_bind, run_alloc, run_lift.
  destruct (robust_scale _ _) as [e|scaled]; simpl.
  { exists (extra ++ [OFrame gp]). by rewrite <- app_assoc, app_nil_r. }
  rewrite run_bind, run_write_last.
  rewrite run_bind, (run_read_frame _ _ _ _ scaled) by apply lookup_local0.
  rewrite run_lift.
  destruct (frame_values _ _) as [e|X]; simpl.
  { exists (extra ++ [OFrame scaled]). by rewrite <- app_assoc, app_nil_r. }
  rewrite run_bind. unfold predict at 1. simpl.
  exists (extra ++ [OFrame scaled]).
  destruct (model [X]) as [e|values]; simpl.
  { by rewrite <- app_assoc. }
  rewrite run_lift.
  destruct (index values 0) as [e|row]; simpl.
  { by rewrite <- app_assoc. }
  rewrite <- app_assoc. simpl.
  unfold emit. simpl. by rewrite run_append_dict.
Qed.

Lemma classify_loop_fed h extra d lg acc pdf model objects :
  ∃ extra' acc',
    (for_ objects (T2.classify pdf model (length h))
       (World (h ++ ODicts acc :: extra) d lg)).2
    = World (h ++ ODicts acc' :: extra') d
        (lg ++ (EvPredict <$> objects_fed pdf model objects)).
Proof.
  revert extra lg acc.
  induction objects as [|c objects IH]; intros extra lg acc; simpl.
  - exists extra, acc. by rewrite app_nil_r.
  - destruct (classify_fed h extra d lg acc pdf model c) as (extra1 & Hc).
    rewrite run_bind, Hc. rewrite fmap_app, app_assoc.
    destruct (object_probs pdf model c) as [e|p]; simpl.
    + exists extra1, acc. by rewrite app_nil_r.
    + apply IH.
Qed.

(** A loop that runs to its end has fed the model the tensor of each
    object that has exactly two filters, in order. *)
Lemma objects_fed_all pdf model objects ps :
  mapM (object_probs pdf model) objects = inr ps →
  objects_fed pdf model objects = mjoin (object_fed pdf <$> objects).
Proof.
  revert ps. induction objects as [|c objects IH]; intros ps; [done|].
  rewrite mapM_cons. simpl.
  destruct (object_probs pdf model c) as [e|p]; simpl; [done|].
  destruct (mapM _ objects) as [e|ps'] eqn:Hm; simpl; [done|].
  intros _. by rewrite (IH ps').
Qed.

Lemma object_fed_one_row pdf candid_ x :
  x ∈ object_fed pdf candid_ →
  length x = 1 ∧ n_filters (object_rows pdf candid_) = 2 ∧
  features candid_ (object_rows pdf candid_) = inr x.
Proof.
  unfold object_fed. case_decide as Hn; [by intros ?%elem_of_nil|].
  destruct (features _ _) as [e|X] eqn:HX; [by intros ?%elem_of_nil|].
  intros ->%list_elem_of_singleton. split_and!; [|lia|done].
  unfold features in HX.
  destruct (generate_gp_all_objects _ _ _); simpl in HX; [done|].
  destruct (robust_scale _ _); simpl in HX; [done|].
  destruct (frame_values _ _); simpl in HX; [done|].
  by injection HX as <-.
Qed.

Lemma t2_new_events h d lg candid jd fid magpsf sigmapsf roid cdsxmatch
    jdstarthist model_name b :
  t2_holds (World h d lg) candid jd fid magpsf sigmapsf roid cdsxmatch
    jdstarthist model_name b →
  log (T2.t2 candid jd fid magpsf sigmapsf roid cdsxmatch jdstarthist
         model_name (World h d lg)).2 = lg ++ t2_trace b d.
Proof.
  intros (Hc & Hjd & Hfid & Hmag & Hsig & Hroid & Hcds & Hjds & Hm).
  simpl in *.
  unfold T2.t2, t2_trace, t2_mask, t2_pdf, t2_model_path.
  rewrite run_bind, (run_read_floatss _ _ _ _ (t2_jd b)) by done.
  rewrite run_bind, run_alloc, fmap_const_seq.
  rewrite run_bind, (run_read_floatss _ _ _ _ (t2_magpsf b))
    by by apply lookup_old.
  rewrite run_bind, (run_read_strs _ _ _ _ (t2_cdsxmatch b))
    by by apply lookup_old.
  rewrite run_bind, (run_read_floatss _ _ _ _ (t2_jd b))
    by by apply lookup_old.
  rewrite run_bind, (run_read_floats _ _ _ _ (t2_jdstarthist b))
    by by apply lookup_old.
  rewrite run_bind, (run_read_ints _ _ _ _ (t2_roid b))
    by by apply lookup_old.
  rewrite run_lift.
  destruct (apply_selection_cuts_ztf _ _ _ _ _) as [e|mask]; simpl;
    [by rewrite app_nil_r|].
  rewrite run_bind, (run_read_floatss _ _ _ _ (t2_jd b))
    by by apply lookup_old.
  rewrite run_lift.
  destruct (T2.getitem_mask (t2_jd b) mask) as [e|selected]; simpl;
    [by rewrite app_nil_r|].
  case_decide as Hsel.
  { rewrite (run_read_dicts _ _ _ _ (replicate (length (t2_jd b)) T2.default))
      by apply lookup_local0.
    by rewrite app_nil_r. }
  rewrite run_bind, (run_read_floatss _ _ _ _ (t2_jd b))
    by by apply lookup_old.
  rewrite run_bind, (run_read_floatss _ _ _ _ (t2_magpsf b))
    by by apply lookup_old.
  rewrite run_bind, (run_read_floatss _ _ _ _ (t2_sigmapsf b))
    by by apply lookup_old.
  rewrite run_bind, (run_read_codess _ _ _ _ (t2_fid b))
    by by apply lookup_old.
  rewrite run_bind, (run_read_ints _ _ _ _ (t2_candid b))
    by by apply lookup_old.
  rewrite run_lift.
  destruct (format_data_as_snana _ _ _ _ _ _ _) as [e|raw]; simpl;
    [by rewrite app_nil_r|].
  set (pdf := T2.reset_index (T2.dropna (T2.rename raw))).
  rewrite run_bind.
  assert (
    (match model_name with
     | Some model_name0 =>
         names ← read_strs model_name0;
         name ← lift (index names 0);
         T2.get_lite_model (Some name)
     | None => T2.get_lite_model None
     end (World (h ++ [ODicts (replicate (length (t2_jd b)) T2.default)]) d lg))
    = (match (match t2_model_name b with
              | Some names => index names 0
              | None => inr t2_default_model
              end) with
       | inl e => inl e
       | inr path => open_model d path
       end,
       World (h ++ [ODicts (replicate (length (t2_jd b)) T2.default)]) d
           (lg ++ match (match t2_model_name b with
                         | Some names => index names 0
                         | None => inr t2_default_model
                         end) with
                  | inl _ => []
                  | inr path => [EvLoad path]
                  end))) as ->.
  { destruct model_name as [m|], (t2_model_name b) as [names|];
      simpl in Hm; try done.
    rewrite run_bind, (run_read_strs _ _ _ _ names) by by apply lookup_old.
    rewrite run_lift.
    destruct (index names 0) as [e|name]; simpl; [by rewrite app_nil_r|].
    done. }
  destruct (match t2_model_name b with
            | Some names => index names 0
            | None => inr t2_default_model
            end) as [e|path]; simpl; [by rewrite !app_nil_r|].
  unfold open_model. destruct (d path) as [model|]; simpl; [|done].
  rewrite run_bind, run_alloc.
  rewrite run_bind, (run_read_ints _ _ _ _ (t2_candid b))
    by by do 2 apply lookup_old.
  rewrite run_lift.
  destruct (T2.getitem_mask (t2_candid b) mask) as [e|objects]; simpl;
    [done|].
  rewrite run_bind.
  destruct (classify_loop_fed
              (h ++ [ODicts (replicate (length (t2_jd b)) T2.default)])
              [] d (lg ++ [EvLoad path]) [] pdf model objects)
    as (extra & acc & Hw).
  replace (length (h ++ [ODicts (replicate (length (t2_jd b)) T2.default)]))
    with (S (length h)) in * by (rewrite length_app; simpl; lia).
  destruct (for_ _ _ _) as [[e|[]] w']; simpl in Hw; subst w'; simpl.
  { by rewrite <- app_assoc. }
  rewrite <- (app_assoc h). simpl app.
  rewrite run_bind, (run_read_dicts _ _ _ _ acc) by apply lookup_local1.
  rewrite run_bind,
    (run_read_dicts _ _ _ _ (replicate (length (t2_jd b)) T2.default))
    by apply lookup_local0.
  rewrite run_lift.
  destruct (T2.setitem_mask _ mask acc) as [e|arr]; simpl;
    [by rewrite <- app_assoc|].
  rewrite run_bind,
    (run_write _ _ _ _ (ODicts (replicate (length (t2_jd b)) T2.default)))
    by apply lookup_local0.
  rewrite insert_local0.
  rewrite (run_read_dicts _ _ _ _ arr) by apply lookup_local0.
  simpl. by rewrite <- app_assoc.
Qed.

End t2_feeding.

Lemma fed_predicts (xs : list tensor) : fed (EvPredict <$> xs) = xs.
Proof.
  induction xs as [|x xs IH]; [done|].
  rewrite fmap_cons. unfold fed in *. cbn [omap list_omap]. by f_equal.
Qed.

Lemma object_fed_count `{Libs} pdf model objects ps :
  mapM (object_probs pdf model) objects = inr ps →
  length (mjoin (object_fed pdf <$> objects))
  = length (filter (λ c, n_filters (object_rows pdf c) = 2) objects).
Proof.
  revert ps. induction objects as [|c objects IH]; intros ps Hps; [done|].
  rewrite mapM_cons in Hps. simpl in Hps.
  destruct (object_probs pdf model c) as [e|p] eqn:Hp; simpl in Hps; [done|].
  destruct (mapM _ objects) as [e|ps'] eqn:Hm; simpl in Hps; [done|].
  rewrite fmap_cons.
  change (mjoin (object_fed pdf c :: (object_fed pdf <$> objects)))
    with (object_fed pdf c ++ mjoin (object_fed pdf <$> objects)).
  rewrite length_app, (IH ps') by done.
  rewrite filter_cons. unfold object_fed.
  apply object_probs_cases in Hp as [[Hn _]|(Hn & X & ? & ? & -> & _)].
  - rewrite !decide_True by done. by rewrite decide_False by done.
  - rewrite decide_False by lia. by rewrite decide_True by done.
Qed.

(** X11 — A call of [t2] that gets past the early return and returns has
    run the model once for each selected alert whose rows of the cleaned
    frame carry exactly two filters, in the order of the batch, and for no
    other alert; each time on a tensor with a single row. *)
Theorem t2_inference `{Libs} (w : world)
    (candid jd fid magpsf sigmapsf roid cdsxmatch jdstarthist : loc)
    (model_name : option loc) (b : t2_batch) (out : list probs)
    (mask : list bool) (selected : list (list Q))
    (pdf : list (nat * lc_row)) (objects : list Z) :
  t2_holds w candid jd fid magpsf sigmapsf roid cdsxmatch jdstarthist
    model_name b →
  (T2.t2 candid jd fid magpsf sigmapsf roid cdsxmatch jdstarthist model_name
     w).1 = inr out →
  t2_mask b = inr mask →
  T2.getitem_mask (t2_jd b) mask = inr selected → selected ≠ [] →
  t2_pdf b mask = inr pdf →
  T2.getitem_mask (t2_candid b) mask = inr objects →
  fed (new_events w
         (T2.t2 candid jd fid magpsf sigmapsf roid cdsxmatch jdstarthist
            model_name w).2)
  = mjoin (object_fed pdf <$> objects) ∧
  length (fed (new_events w
                 (T2.t2 candid jd fid magpsf sigmapsf roid cdsxmatch
                    jdstarthist model_name w).2))
  = length (filter (λ c, n_filters (object_rows pdf c) = 2) objects) ∧
  Forall (λ x : tensor, length x = 1)
    (fed (new_events w
            (T2.t2 candid jd fid magpsf sigmapsf roid cdsxmatch jdstarthist
               model_name w).2)).
Proof.
  intros Hb Hout Hm Hsel Hne Hpdf Hobj.
  rewrite (t2_result _ _ _ _ _ _ _ _ _ _ b Hb) in Hout.
  destruct w as [h d lg]. unfold new_events.
  rewrite (t2_new_events _ _ _ _ _ _ _ _ _ _ _ _ b Hb). simpl.
  rewrite drop_app_length.
  unfold t2_outcome in Hout. unfold t2_trace.
  rewrite Hm in *. simpl in Hout. rewrite Hsel in *. simpl in Hout.
  rewrite decide_False in Hout by by destruct selected.
  rewrite decide_False by by destruct selected.
  unfold t2_classified in Hout. rewrite Hpdf in *. simpl in Hout.
  destruct (t2_model_path b) as [e|path]; simpl in Hout; [done|].
  unfold open_model in Hout.
  destruct (d path) as [model|]; simpl in Hout; [|done].
  rewrite Hobj in *. simpl in Hout.
  destruct (mapM (object_probs pdf model) objects) as [e|ps] eqn:Hps;
    simpl in Hout; [done|].
  change (fed (EvLoad path :: (EvPredict <$> objects_fed pdf model objects)))
    with (fed (EvPredict <$> objects_fed pdf model objects)).
  rewrite fed_predicts, (objects_fed_all _ _ _ _ Hps).
  split_and!; [done|by eapply object_fed_count|].
  apply Forall_forall. intros x (l & Hx & Hl)%list_elem_of_join.
  apply list_elem_of_fmap in Hl as (c & -> & _).
  by apply object_fed_one_row in Hx as [? _].
Qed.

Lemma t2_inference_witness :
  ∃ x : tensor,
    fed (new_events Sample.good (T2.t2 4 5 6 7 8 9 10 11 None Sample.good).2)
    = [x] ∧ length x = 1.
Proof.
  eassert (fed (new_events Sample.good
                  (T2.t2 4 5 6 7 8 9 10 11 None Sample.good).2) = [_]) as Hf
    by reflexivity.
  eexists. split; [exact Hf|].
  pose proof (proj2 (proj2
    (t2_inference Sample.good 4 5 6 7 8 9 10 11 None Sample.t2_sample _
       [true; false; true] _ _ [10; 12]%Z
       ltac:(repeat split) eq_refl eq_refl eq_refl ltac:(discriminate)
       eq_refl eq_refl))) as Hall.
  rewrite Hf in Hall. by apply Forall_singleton in Hall.
Defined.
